(** * mcpi_fast_query: the pipelined batch query engine

    A shallow embedding of [minecraft-pi-fast-query.py]: the worker loop
    [worker_fn], the generator [query_blocks] that drives it inline or from
    threads, and the two picraft adapters. *)

From Stdlib Require Import ZArith List Bool Lia Ascii String DecimalString.
From Stdlib Require Import DecimalPos DecimalZ.
From Stdlib.Strings Require Import Byte.
From stdpp Require Import base list gmap.
Import ListNotations.

(** ** Python values *)

(** A [bytes] object. *)
Definition bytes := list byte.

(** The line terminator [b"\n"]. *)
Definition nl : byte := "010"%byte.

#[global] Instance byte_eq_decision : EqDecision byte := Byte.byte_eq_dec.

(** [text.encode(socket_encoding)] and [data.decode(socket_encoding)] for a
    single-byte encoding. *)
Definition encode (s : string) : bytes := list_byte_of_string s.
Definition decode (b : bytes) : string := string_of_list_byte b.

(** The two kinds of value the worker compares with [==]. *)
Inductive pyval :=
| PyInt (n : Z)
| PyBytes (b : bytes).

(** Python's [==]: integers compare by value, byte strings by content, and
    an integer is never equal to a byte string. *)
Definition py_eq (a b : pyval) : bool :=
  match a, b with
  | PyInt m, PyInt n => Z.eqb m n
  | PyBytes x, PyBytes y => bool_decide (x = y)
  | _, _ => false
  end.

(** [data.split(b"\n")]: the segments between terminators; never empty. *)
Fixpoint bytes_split (b : bytes) : list bytes :=
  match b with
  | [] => [[]]
  | c :: b' =>
      if Byte.eqb c nl then [] :: bytes_split b'
      else match bytes_split b' with
           | [] => [[c]]
           | s :: ss => (c :: s) :: ss
           end
  end.

(** [responses[-1]] and [responses[:-1]]. *)
Definition py_last (l : list bytes) : bytes := List.last l [].
Definition py_init (l : list bytes) : list bytes := List.removelast l.

(** [int(text)] on an optionally negated run of decimal digits; [None] stands
    for [ValueError]. *)
Definition py_int (s : string) : option Z :=
  option_map Z.of_int (NilZero.int_of_string s).

(** The [%d] conversion. *)
Definition pct_d (z : Z) : string := NilZero.string_of_int (Z.to_int z).

(** Exceptions that leave [worker_fn]. *)
Inductive exn :=
| RuntimeError_send0   (* RuntimeError("unexpected socket.send()=0") *)
| RuntimeError_recv0   (* RuntimeError("unexpected socket.recv()=0") *)
| SocketError          (* socket.error raised by send or recv *)
| IndexError           (* popleft on an empty deque *)
| ParseError           (* raised by parse_fn *)
| KeyError.            (* a key the dict does not hold *)

(** ** The socket as the worker sees it

    One [io_event] fixes what [select], [send] and [recv] answer during one
    pass of the worker loop. *)
Inductive send_result := SendOk (n : nat) | SendRaises.
Inductive recv_result := RecvOk (data : bytes) | RecvRaises.

Record io_event := {
  sel_read : bool;
  sel_write : bool;
  on_send : send_result;
  on_recv : recv_result }.

(** The peer reacts to what it was sent and what was already read from it. *)
Definition reaction := bytes -> bytes -> io_event.

Definition scripted (ev : io_event) : reaction := fun _ _ => ev.

(** The peer's reaction makes [select] report the socket readable and
    [recv] return [data], whatever was exchanged before. *)
Definition delivers (react : reaction) (data : bytes) : Prop :=
  forall sent rcvd,
    sel_read (react sent rcvd) = true
    /\ on_recv (react sent rcvd) = RecvOk data.

(** ** The worker *)

Section Worker.
Context {Request Answer : Type}.

(** [fmt % pos] *)
Variable fmt : Request -> string.
(** [parse_fn]; [None] when it raises. *)
Variable parse_fn : string -> option Answer.

(** The variables of [worker_fn], the objects its arguments refer to
    ([request_iter]: the requests the iterator has yet to yield;
    [answer_queue]: the queue's content, oldest first) and the bytes that
    went through [mc_socket] in each direction. *)
Record worker := {
  request_iter : list Request;
  answer_queue : list (Request * Answer);
  sock_sent : bytes;
  sock_rcvd : bytes;
  more_requests : bool;
  request_buffer : bytes;
  response_buffer : bytes;
  pending_request_queue : list Request }.

Inductive outcome :=
| Running (w : worker)          (* the pass is over, back to the loop test *)
| Blocked (w : worker)          (* waiting in select: no event left *)
| Returned (w : worker)         (* the loop test failed *)
| Raised (e : exn) (w : worker).

(** [worker_fn] on entry. *)
Definition worker_init (it : list Request) (aq : list (Request * Answer))
  : worker :=
  {| request_iter := it; answer_queue := aq;
     sock_sent := []; sock_rcvd := [];
     more_requests := true; request_buffer := [];
     response_buffer := []; pending_request_queue := [] |}.

(** [more_requests or len(pending_request_queue) > 0] *)
Definition loop_test (w : worker) : bool :=
  more_requests w || (0 <? Z.of_nat (length (pending_request_queue w)))%Z.

(** "Grab more requests": the inner [while]. *)
Fixpoint grab_requests (it : list Request) (more : bool) (rb : bytes)
    (pq : list Request) : list Request * bool * bytes * list Request :=
  if more && (Z.of_nat (length rb) <? 4096)%Z then
    match it with
    | [] => ([], false, rb, pq)
    | pos :: it' =>
        let new_request := encode (fmt pos) in
        grab_requests it' more (rb ++ new_request ++ [nl]) (pq ++ [pos])
    end
  else (it, more, rb, pq).

Definition grab (w : worker) : worker :=
  let '(it, more, rb, pq) :=
    grab_requests (request_iter w) (more_requests w) (request_buffer w)
                  (pending_request_queue w) in
  {| request_iter := it; answer_queue := answer_queue w;
     sock_sent := sock_sent w; sock_rcvd := sock_rcvd w;
     more_requests := more; request_buffer := rb;
     response_buffer := response_buffer w; pending_request_queue := pq |}.

(** "Write requests to the server": one [send]. *)
Definition write_once (ev : io_event) (w : worker) : outcome :=
  match on_send ev with
  | SendRaises => Raised SocketError w
  | SendOk bytes_written =>
      let w' :=
        {| request_iter := request_iter w; answer_queue := answer_queue w;
           sock_sent := sock_sent w ++ take bytes_written (request_buffer w);
           sock_rcvd := sock_rcvd w;
           more_requests := more_requests w;
           request_buffer := drop bytes_written (request_buffer w);
           response_buffer := response_buffer w;
           pending_request_queue := pending_request_queue w |} in
      if py_eq (PyInt (Z.of_nat bytes_written)) (PyInt 0)
      then Raised RuntimeError_send0 w'
      else Running w'
  end.

(** "Read responses from the server": one [recv]. *)
Definition read_once (ev : io_event) (w : worker) : outcome :=
  match on_recv ev with
  | RecvRaises => Raised SocketError w
  | RecvOk bytes_read =>
      let w' :=
        {| request_iter := request_iter w; answer_queue := answer_queue w;
           sock_sent := sock_sent w;
           sock_rcvd := sock_rcvd w ++ bytes_read;
           more_requests := more_requests w;
           request_buffer := request_buffer w;
           response_buffer := response_buffer w ++ bytes_read;
           pending_request_queue := pending_request_queue w |} in
      if py_eq (PyBytes bytes_read) (PyInt 0)
      then Raised RuntimeError_recv0 w'
      else Running w'
  end.

(** The [for response_string in responses] loop. *)
Fixpoint match_responses (responses : list bytes) (pq : list Request)
    (aq : list (Request * Answer))
  : option exn * list Request * list (Request * Answer) :=
  match responses with
  | [] => (None, pq, aq)
  | response_string :: responses' =>
      match pq with
      | [] => (Some IndexError, pq, aq)
      | request :: pq' =>
          match parse_fn (decode response_string) with
          | None => (Some ParseError, pq', aq)
          | Some answer =>
              match_responses responses' pq' (aq ++ [(request, answer)])
          end
      end
  end.

(** "Parse the response strings". *)
Definition parse_responses (w : worker) : outcome :=
  let responses := bytes_split (response_buffer w) in
  let '(err, pq, aq) :=
    match_responses (py_init responses) (pending_request_queue w)
                    (answer_queue w) in
  let w' :=
    {| request_iter := request_iter w; answer_queue := aq;
       sock_sent := sock_sent w; sock_rcvd := sock_rcvd w;
       more_requests := more_requests w;
       request_buffer := request_buffer w;
       response_buffer := py_last responses;
       pending_request_queue := pq |} in
  match err with
  | Some e => Raised e w'
  | None => Running w'
  end.

(** From [select] to the end of the pass. *)
Definition io_and_parse (ev : io_event) (w : worker) : outcome :=
  let want_write := (0 <? Z.of_nat (length (request_buffer w)))%Z in
  let allow_read := sel_read ev in
  let allow_write := want_write && sel_write ev in
  match (if allow_write then write_once ev w else Running w) with
  | Running w1 =>
      match (if allow_read then read_once ev w1 else Running w1) with
      | Running w2 => parse_responses w2
      | o => o
      end
  | o => o
  end.

(** The outer [while] of [worker_fn], one reaction of the peer per
    [select]. *)
Fixpoint worker_fn (script : list reaction) (w : worker) : outcome :=
  if loop_test w then
    let w1 := grab w in
    if loop_test w1 then
      match script with
      | [] => Blocked w1
      | react :: script' =>
          match io_and_parse (react (sock_sent w1) (sock_rcvd w1)) w1 with
          | Running w2 => worker_fn script' w2
          | o => o
          end
      end
    else Returned w1
  else Returned w.

End Worker.

Arguments worker : clear implicits.
Arguments outcome : clear implicits.


(** ** The batch: iterables, sockets, threads and the generator *)

(** The [requests] argument: a sequence, which [iter] can walk any number of
    times, or an iterator (a generator), which is its own iterator. *)
Inductive iterable (Request : Type) :=
| PySeq (items : list Request)
| PyIterator (h : nat).
Arguments PySeq {Request} items.
Arguments PyIterator {Request} h.

(** What happens to the [i]-th socket the batch creates: whether [connect]
    succeeds, how the peer behaves, whether [shutdown] succeeds. *)
Record sock_plan := {
  connect_ok : bool;
  plan_script : list reaction;
  shutdown_ok : bool }.

(** No server behind the address. *)
Definition unreachable : sock_plan :=
  {| connect_ok := false; plan_script := []; shutdown_ok := false |}.

(** Everything outside the program: the peer of the caller's connection, the
    peers of new connections, and the order in which threads run. *)
Record env := {
  conn_script : list reaction;
  net_plans : list sock_plan;
  schedule : list nat }.

Record sock_state := {
  sk_connected : bool;
  sk_shutdown : bool;
  sk_closed : bool }.

Inductive thread_status := TLive | TFinished | TDied (e : exn).

Section Batch.
Context {Request Answer : Type}.
Variable fmt : Request -> string.
Variable parse_fn : string -> option Answer.

(** The state the batch can change: iterator objects (each with the items
    it has yet to yield), how often a sequence was asked for an iterator,
    the traffic on the caller's socket, the sockets the batch created and
    the number of threads it started. *)
Record world := {
  iterators : list (list Request);
  seq_iterations : nat;
  conn_sent : bytes;
  conn_rcvd : bytes;
  sockets : list sock_state;
  threads_started : nat }.

(** [iter(requests)] *)
Definition py_iter (requests : iterable Request) (wd : world)
  : nat * world :=
  match requests with
  | PySeq items =>
      (length (iterators wd),
       {| iterators := iterators wd ++ [items];
          seq_iterations := S (seq_iterations wd);
          conn_sent := conn_sent wd; conn_rcvd := conn_rcvd wd;
          sockets := sockets wd; threads_started := threads_started wd |})
  | PyIterator h => (h, wd)
  end.

Definition iterator_items (wd : world) (h : nat) : list Request :=
  default [] (iterators wd !! h).

(** [thread_count == 0]: the worker runs in the calling thread on the
    caller's socket. *)
Definition run_inline (e : env) (requests : iterable Request) (wd : world)
  : outcome Request Answer * world :=
  let '(h, wd1) := py_iter requests wd in
  let o := worker_fn fmt parse_fn (conn_script e)
                     (worker_init (iterator_items wd1 h) []) in
  let w' := match o with
            | Running w' | Blocked w' | Returned w' | Raised _ w' => w'
            end in
  (o, {| iterators := <[h := request_iter w']> (iterators wd1);
         seq_iterations := seq_iterations wd1;
         conn_sent := conn_sent wd1 ++ sock_sent w';
         conn_rcvd := conn_rcvd wd1 ++ sock_rcvd w';
         sockets := sockets wd1;
         threads_started := threads_started wd1 |}).

(** *** Threads *)

Record thread := {
  th_status : thread_status;
  th_iter : nat;                       (* the iterator it was given *)
  th_script : list reaction;           (* the peer of its socket *)
  th_worker : worker Request Answer }. (* its local variables *)

(** What the threads share: the iterator objects and the answer queue. *)
Record pool := {
  pl_iterators : list (list Request);
  pl_queue : list (Request * Answer);
  pl_threads : list thread }.

Definition with_shared (it : list Request) (aq : list (Request * Answer))
    (w : worker Request Answer) : worker Request Answer :=
  {| request_iter := it; answer_queue := aq;
     sock_sent := sock_sent w; sock_rcvd := sock_rcvd w;
     more_requests := more_requests w;
     request_buffer := request_buffer w;
     response_buffer := response_buffer w;
     pending_request_queue := pending_request_queue w |}.

(** Thread [i] runs until its next [select] has been answered and it waits
    in the following one, returns or dies.  An exception in a thread ends
    that thread only.  The threads meet in the iterator objects, which they
    advance under [request_lock], and in the answer queue; a schedule of
    such turns is one way the threads can run, and switches inside a pass
    are not followed. *)
Definition thread_turn (p : pool) (i : nat) : pool :=
  match pl_threads p !! i with
  | Some t =>
      match th_status t with
      | TLive =>
          let w := with_shared (default [] (pl_iterators p !! th_iter t))
                               (pl_queue p) (th_worker t) in
          let '(st, w') :=
            match worker_fn fmt parse_fn (take 1 (th_script t)) w with
            | Running w' | Blocked w' => (TLive, w')
            | Returned w' => (TFinished, w')
            | Raised ex w' => (TDied ex, w')
            end in
          {| pl_iterators := <[th_iter t := request_iter w']> (pl_iterators p);
             pl_queue := answer_queue w';
             pl_threads :=
               <[i := {| th_status := st; th_iter := th_iter t;
                         th_script := drop 1 (th_script t);
                         th_worker := w' |}]> (pl_threads p) |}
      | _ => p
      end
  | None => p
  end.

Definition thread_over (t : thread) : bool :=
  match th_status t with TLive => false | _ => true end.

(** [plans[i]], or no server at all. *)
Definition plan_of (plans : list sock_plan) (i : nat) : sock_plan :=
  default unreachable (plans !! i).

(** The first [for]: create and connect [n] sockets, from the [i]-th on;
    [false] when a [connect] raised [socket.error].  The socket is in
    [sockets] before it is connected. *)
Fixpoint open_sockets (plans : list sock_plan) (i n : nat)
    (socks : list sock_state) : bool * list sock_state :=
  match n with
  | 0 => (true, socks)
  | S n' =>
      let fresh := {| sk_connected := false; sk_shutdown := false;
                      sk_closed := false |} in
      if connect_ok (plan_of plans i)
      then open_sockets plans (S i) n'
             (socks ++ [{| sk_connected := true; sk_shutdown := false;
                           sk_closed := false |}])
      else (false, socks ++ [fresh])
  end.

(** The second [for]: one thread per socket, each on [iter(requests)]. *)
Fixpoint start_threads (plans : list sock_plan)
    (requests : iterable Request) (i n : nat) (wd : world)
    (ths : list thread) : world * list thread :=
  match n with
  | 0 => (wd, ths)
  | S n' =>
      let '(h, wd1) := py_iter requests wd in
      let t := {| th_status := TLive; th_iter := h;
                  th_script := plan_script (plan_of plans i);
                  th_worker := worker_init [] [] |} in
      start_threads plans requests (S i) n'
        {| iterators := iterators wd1;
           seq_iterations := seq_iterations wd1;
           conn_sent := conn_sent wd1; conn_rcvd := conn_rcvd wd1;
           sockets := sockets wd1;
           threads_started := S (threads_started wd1) |}
        (ths ++ [t])
  end.

(** The body of the [finally] loop for one socket: [shutdown] raises on a
    socket that is not connected or whose peer is gone; the [except]
    clause swallows it, and [close] is not reached. *)
Definition cleanup_socket (plan : sock_plan) (s : sock_state) : sock_state :=
  if sk_connected s && shutdown_ok plan
  then {| sk_connected := sk_connected s; sk_shutdown := true;
          sk_closed := true |}
  else s.

Definition cleanup (plans : list sock_plan) (socks : list sock_state)
  : list sock_state :=
  imap (fun i s => cleanup_socket (plan_of plans i) s) socks.

(** How the code before the draining loop ends. *)
Inductive body_result :=
| BodyDone (aq : list (Request * Answer))
| BodyRaised (ex : exn)
| BodyHangs.

(** [thread_count != 0]; [getpeername] is taken to succeed. *)
Definition run_threaded (e : env) (requests : iterable Request)
    (thread_count : Z) (wd : world) : body_result * world :=
  let n := Z.to_nat thread_count in
  let '(connected, socks) := open_sockets (net_plans e) 0 n [] in
  if connected then
    let '(wd1, ths) := start_threads (net_plans e) requests 0 n wd [] in
    let p := fold_left thread_turn (schedule e)
               {| pl_iterators := iterators wd1; pl_queue := [];
                  pl_threads := ths |} in
    if forallb thread_over (pl_threads p) then
      (BodyDone (pl_queue p),
       {| iterators := pl_iterators p;
          seq_iterations := seq_iterations wd1;
          conn_sent := conn_sent wd1; conn_rcvd := conn_rcvd wd1;
          sockets := sockets wd1 ++ cleanup (net_plans e) socks;
          threads_started := threads_started wd1 |})
    else
      (BodyHangs,
       {| iterators := pl_iterators p;
          seq_iterations := seq_iterations wd1;
          conn_sent := conn_sent wd1; conn_rcvd := conn_rcvd wd1;
          sockets := sockets wd1 ++ socks;
          threads_started := threads_started wd1 |})
  else
    (BodyRaised SocketError,
     {| iterators := iterators wd;
        seq_iterations := seq_iterations wd;
        conn_sent := conn_sent wd; conn_rcvd := conn_rcvd wd;
        sockets := sockets wd ++ cleanup (net_plans e) socks;
        threads_started := threads_started wd |}).

(** *** The generator *)

Inductive gen_pc := GenCreated | GenDraining | GenDone.

Record generator := {
  gen_at : gen_pc;
  gen_requests : iterable Request;
  gen_thread_count : Z;
  gen_queue : list (Request * Answer) }.

Inductive next_result :=
| Yield (v : Request * Answer)
| StopIteration
| RaiseExn (ex : exn)
| Hang.

(** Calling [query_blocks] builds the generator object. *)
Definition query_blocks (requests : iterable Request) (thread_count : Z)
    (wd : world) : generator * world :=
  ({| gen_at := GenCreated; gen_requests := requests;
      gen_thread_count := thread_count; gen_queue := [] |}, wd).

Definition gen_finished (g : generator) : generator :=
  {| gen_at := GenDone; gen_requests := gen_requests g;
     gen_thread_count := gen_thread_count g; gen_queue := [] |}.

(** [while not answer_queue.empty(): yield answer_queue.get()] *)
Definition drain_step (g : generator) (aq : list (Request * Answer))
  : next_result * generator :=
  match aq with
  | [] => (StopIteration, gen_finished g)
  | v :: aq' =>
      (Yield v, {| gen_at := GenDraining; gen_requests := gen_requests g;
                   gen_thread_count := gen_thread_count g;
                   gen_queue := aq' |})
  end.

(** The function body up to the draining loop. *)
Definition run_body (e : env) (g : generator) (wd : world)
  : body_result * world :=
  if (gen_thread_count g =? 0)%Z then
    match run_inline e (gen_requests g) wd with
    | (Returned w', wd') => (BodyDone (answer_queue w'), wd')
    | (Raised ex _, wd') => (BodyRaised ex, wd')
    | (_, wd') => (BodyHangs, wd')
    end
  else run_threaded e (gen_requests g) (gen_thread_count g) wd.

(** [next(gen)] *)
Definition gen_next (e : env) (g : generator) (wd : world)
  : next_result * generator * world :=
  match gen_at g with
  | GenCreated =>
      match run_body e g wd with
      | (BodyDone aq, wd') => (drain_step g aq, wd')
      | (BodyRaised ex, wd') => (RaiseExn ex, gen_finished g, wd')
      | (BodyHangs, wd') => (Hang, g, wd')
      end
  | GenDraining => (drain_step g (gen_queue g), wd)
  | GenDone => (StopIteration, g, wd)
  end.

(** What a consumer that exhausts the generator gets. *)
Inductive collected :=
| Collected (items : list (Request * Answer))
| Failed (ex : exn) (seen : list (Request * Answer))
| Stuck (seen : list (Request * Answer)).

Definition seen_first (v : Request * Answer) (c : collected) : collected :=
  match c with
  | Collected items => Collected (v :: items)
  | Failed ex seen => Failed ex (v :: seen)
  | Stuck seen => Stuck (v :: seen)
  end.

(** Up to [fuel] calls of [next]. *)
Fixpoint gen_drain (fuel : nat) (e : env) (g : generator) (wd : world)
  : collected * world :=
  match fuel with
  | 0 => (Stuck [], wd)
  | S fuel' =>
      match gen_next e g wd with
      | (Yield v, g', wd') =>
          let '(c, wd'') := gen_drain fuel' e g' wd' in
          (seen_first v c, wd'')
      | (StopIteration, _, wd') => (Collected [], wd')
      | (RaiseExn ex, _, wd') => (Failed ex [], wd')
      | (Hang, _, wd') => (Stuck [], wd')
      end
  end.

(** [for item in gen], [list(gen)] or a comprehension over [gen]: the
    first [next] runs the body; it leaves a queue, which takes one [next]
    per item and one more to find it empty. *)
Definition py_collect (e : env) (g : generator) (wd : world)
  : collected * world :=
  match gen_next e g wd with
  | (Yield v, g', wd') =>
      let '(c, wd'') := gen_drain (S (length (gen_queue g'))) e g' wd' in
      (seen_first v c, wd'')
  | (StopIteration, _, wd') => (Collected [], wd')
  | (RaiseExn ex, _, wd') => (Failed ex [], wd')
  | (Hang, _, wd') => (Stuck [], wd')
  end.

End Batch.

Arguments world : clear implicits.
Arguments generator : clear implicits.
Arguments collected : clear implicits.
Arguments body_result : clear implicits.
Arguments next_result : clear implicits.
Arguments thread : clear implicits.
Arguments pool : clear implicits.

(** ** The picraft adapters *)

(** [picraft.Vector]: x, y, z. *)
Definition Vector := (Z * Z * Z)%type.

(** [text.split(",")] *)
Fixpoint str_split (sep : ascii) (s : string) : list string :=
  match s with
  | EmptyString => [EmptyString]
  | String c s' =>
      if Ascii.eqb c sep then EmptyString :: str_split sep s'
      else match str_split sep s' with
           | [] => [String c EmptyString]
           | x :: xs => String c x :: xs
           end
  end.

(** [lambda ans: tuple(map(int, ans.split(",")))] *)
Definition parse_int_tuple (s : string) : option (list Z) :=
  mapM py_int (str_split ","%char s).

(** ["world.getBlockWithData(%d,%d,%d)" % pos] *)
Definition fmt_getBlockWithData (pos : Vector) : string :=
  let '(x, y, z) := pos in
  ("world.getBlockWithData(" ++ pct_d x ++ "," ++ pct_d y ++ ","
     ++ pct_d z ++ ")")%string.

(** ["world.getHeight(%d,%d)" % pos] *)
Definition fmt_getHeight (pos : Z * Z) : string :=
  let '(x, z) := pos in
  ("world.getHeight(" ++ pct_d x ++ "," ++ pct_d z ++ ")")%string.

(** What a call gives back. *)
Inductive result (A : Type) :=
| Value (a : A)
| Error (ex : exn)
| NoValue.
Arguments Value {A} a.
Arguments Error {A} ex.
Arguments NoValue {A}.

Section Adapters.
Context {Block : Type}.
(** [picraft.Block] applied to the unpacked tuple. *)
Variable picraft_Block : list Z -> Block.

(** The dict comprehension [{pos: data for (pos, data) in ...}]: a later
    pair replaces an earlier one with the same key. *)
Definition dict_of (items : list (Vector * list Z))
  : gmap Vector (list Z) :=
  fold_left (fun m (item : Vector * list Z) => <[item.1 := item.2]> m)
            items ∅.

(** The list comprehension over [ans[v]]: the blocks, or [KeyError], and
    what the iterator is left with. *)
Fixpoint blocks_of (ans : gmap Vector (list Z)) (it : list Vector)
  : result (list Block) * list Vector :=
  match it with
  | [] => (Value [], [])
  | v :: it' =>
      match ans !! v with
      | None => (Error KeyError, it')
      | Some data =>
          match blocks_of ans it' with
          | (Value bs, rest) => (Value (picraft_Block data :: bs), rest)
          | other => other
          end
      end
  end.

Definition alt_picraft_getblock_vrange (e : env) (vrange : list Vector)
    (wd : world Vector) : result (list Block) * world Vector :=
  let '(g, wd0) := query_blocks (PySeq vrange) 0 wd in
  match py_collect fmt_getBlockWithData parse_int_tuple e g wd0 with
  | (Collected items, wd1) =>
      let ans := dict_of items in
      let '(h, wd2) := py_iter (PySeq vrange) wd1 in
      let '(r, rest) := blocks_of ans (iterator_items wd2 h) in
      (r, {| iterators := <[h := rest]> (iterators wd2);
             seq_iterations := seq_iterations wd2;
             conn_sent := conn_sent wd2; conn_rcvd := conn_rcvd wd2;
             sockets := sockets wd2;
             threads_started := threads_started wd2 |})
  | (Failed ex _, wd1) => (Error ex, wd1)
  | (Stuck _, wd1) => (NoValue, wd1)
  end.

(** The generator expression [((v[0], v[2]) for v in vrange)]: it takes
    [iter(vrange)] when it is created and is its own iterator. *)
Definition columns_of (vrange : list Vector) (wd : world (Z * Z))
  : iterable (Z * Z) * world (Z * Z) :=
  (PyIterator (length (iterators wd)),
   {| iterators := iterators wd ++ [map (fun v : Vector => (v.1.1, v.2)) vrange];
      seq_iterations := S (seq_iterations wd);
      conn_sent := conn_sent wd; conn_rcvd := conn_rcvd wd;
      sockets := sockets wd; threads_started := threads_started wd |}).

Definition alt_picraft_getheight_vrange (e : env) (vrange : list Vector)
    (wd : world (Z * Z)) : result (list Vector) * world (Z * Z) :=
  let '(columns, wd0) := columns_of vrange wd in
  let '(g, wd1) := query_blocks columns 0 wd0 in
  match py_collect fmt_getHeight py_int e g wd1 with
  | (Collected items, wd2) =>
      (Value (map (fun item : Z * Z * Z =>
                     let '(pos, data) := item in (pos.1, data, pos.2))
                  items), wd2)
  | (Failed ex _, wd2) => (Error ex, wd2)
  | (Stuck _, wd2) => (NoValue, wd2)
  end.

End Adapters.
(** ** A well-behaved peer

    The server answers every complete command line with one reply line, in
    order.  A [choice] fixes how much the transport moves during one pass:
    how many bytes [send] accepts and how many bytes [recv] may return (0:
    not ready). *)

Definition stream (lines : list bytes) : bytes :=
  concat (map (fun l => l ++ [nl]) lines).

Record choice := { ch_write : nat; ch_read : nat }.

Definition ready (c : choice) : bool :=
  (0 <? ch_write c)%nat && (0 <? ch_read c)%nat.

Section Server.
(** The reply line to one command line. *)
Variable reply : bytes -> bytes.

(** Everything the server has written once it has received [sent]. *)
Definition server_output (sent : bytes) : bytes :=
  stream (map reply (py_init (bytes_split sent))).

Definition served (c : choice) : reaction := fun sent rcvd =>
  let avail := drop (length rcvd) (server_output sent) in
  {| sel_read := (0 <? ch_read c)%nat && (0 <? length avail)%nat;
     sel_write := (0 <? ch_write c)%nat;
     on_send := SendOk (ch_write c);
     on_recv := RecvOk (take (Nat.min (ch_read c) 1024) avail) |}.
End Server.


(** ** Vocabulary of the statements *)

(** No line terminator inside. *)
Definition nl_free (b : bytes) : Prop := nl ∉ b.

(** The passes of a script in which the transport is ready both ways. *)
Definition count_ready (choices : list choice) : nat :=
  length (List.filter ready choices).

Section Vocabulary.
Context {Request Answer : Type}.
Variable fmt : Request -> string.
Variable reply : bytes -> bytes.
Variable answer_of : Request -> Answer.

(** The command line of a request, without its terminator. *)
Definition command (r : Request) : bytes := encode (fmt r).

(** The bytes the requests of [l] put on the wire. *)
Definition wire_of (l : list Request) : bytes := stream (map command l).

(** The bytes the server answers them with. *)
Definition replies_of (l : list Request) : bytes :=
  stream (map (fun r => reply (command r)) l).

(** The pairs the batch owes for [l]. *)
Definition expected_of (l : list Request) : list (Request * Answer) :=
  map (fun r => (r, answer_of r)) l.

(** Bytes moved through the socket so far, and all the bytes a batch
    moves. *)
Definition progress (w : worker Request Answer) : nat :=
  length (sock_sent w) + length (sock_rcvd w).

Definition budget_of (R : list Request) : nat :=
  length (wire_of R) + length (replies_of R).

(** What the server has written and the worker has not read yet. *)
Definition available_of (w : worker Request Answer) : bytes :=
  drop (length (sock_rcvd w)) (server_output reply (sock_sent w)).

(** The state after [send] accepted the first [k] bytes of the buffer and
    [recv] returned [d]. *)
Definition after_io (k : nat) (d : bytes) (w : worker Request Answer)
  : worker Request Answer :=
  {| request_iter := request_iter w; answer_queue := answer_queue w;
     sock_sent := sock_sent w ++ take k (request_buffer w);
     sock_rcvd := sock_rcvd w ++ d;
     more_requests := more_requests w;
     request_buffer := drop k (request_buffer w);
     response_buffer := response_buffer w ++ d;
     pending_request_queue := pending_request_queue w |}.

(** The state after [recv] returned [d]. *)
Definition received (d : bytes) (w : worker Request Answer)
  : worker Request Answer :=
  {| request_iter := request_iter w; answer_queue := answer_queue w;
     sock_sent := sock_sent w;
     sock_rcvd := sock_rcvd w ++ d;
     more_requests := more_requests w;
     request_buffer := request_buffer w;
     response_buffer := response_buffer w ++ d;
     pending_request_queue := pending_request_queue w |}.

(** The complete lines of a receive buffer. *)
Definition complete_lines (buffer : bytes) : list bytes :=
  py_init (bytes_split buffer).

(** Where a batch over [R] stands between two passes of the loop:
    [answered] requests are in the answer queue; the commands of [fed]
    reached the server, those of [unfed] have not yet, or not
    completely. *)
Inductive batch_inv (R : list Request) (w : worker Request Answer) : Prop :=
| mk_inv (answered fed unfed : list Request) (part_sent to_read : bytes)
    (inv_all : R = answered ++ fed ++ unfed ++ request_iter w)
    (inv_pending : pending_request_queue w = fed ++ unfed)
    (inv_answers : answer_queue w = expected_of answered)
    (inv_sent : sock_sent w = wire_of (answered ++ fed) ++ part_sent)
    (inv_part : nl_free part_sent)
    (inv_unsent : part_sent ++ request_buffer w = wire_of unfed)
    (inv_rcvd : sock_rcvd w = replies_of answered ++ response_buffer w)
    (inv_resp : nl_free (response_buffer w))
    (inv_to_read : response_buffer w ++ to_read = replies_of fed)
    (inv_more : more_requests w = false -> request_iter w = []).

(** The iterable [requests] stands for the sequence [R]. *)
Definition denotes (requests : iterable Request) (wd : world Request)
    (R : list Request) : Prop :=
  match requests with
  | PySeq items => items = R
  | PyIterator h => iterators wd !! h = Some R
  end.

(** The world an inline batch leaves when the worker returned [w']. *)
Definition inline_world (requests : iterable Request) (wd : world Request)
    (w' : worker Request Answer) : world Request :=
  let wd1 := (py_iter requests wd).2 in
  {| iterators := <[(py_iter requests wd).1 := request_iter w']> (iterators wd1);
     seq_iterations := seq_iterations wd1;
     conn_sent := conn_sent wd1 ++ sock_sent w';
     conn_rcvd := conn_rcvd wd1 ++ sock_rcvd w';
     sockets := sockets wd1;
     threads_started := threads_started wd1 |}.

End Vocabulary.

(** ** Scenarios *)

(** Three block positions and a stub server for the block-with-data query
    that knows them. *)
Definition three_blocks : list Vector := [(0, 0, 0); (1, 0, 0); (2, 0, 0)]%Z.

Definition stub_reply (command_line : bytes) : bytes :=
  if decide (command_line = encode "world.getBlockWithData(0,0,0)")
  then encode "1,0"
  else if decide (command_line = encode "world.getBlockWithData(1,0,0)")
  then encode "2,0"
  else if decide (command_line = encode "world.getBlockWithData(2,0,0)")
  then encode "3,0"
  else encode "0,0".

Definition stub_answer (pos : Vector) : list Z :=
  default [] (parse_int_tuple
                (decode (stub_reply (encode (fmt_getBlockWithData pos))))).


(** The transport takes a full buffer and returns a full read, or moves one
    byte at a time. *)
Definition eager : choice := {| ch_write := 4096; ch_read := 1024 |}.
Definition trickle : choice := {| ch_write := 1; ch_read := 1 |}.

(** [select] reports the socket readable and [recv] returns [b""]: the peer
    has shut the connection down. *)
Definition peer_closed : io_event :=
  {| sel_read := true; sel_write := false;
     on_send := SendOk 0; on_recv := RecvOk [] |}.

(** The connection is reset: [recv] raises [socket.error]. *)
Definition peer_reset : io_event :=
  {| sel_read := true; sel_write := false;
     on_send := SendOk 0; on_recv := RecvRaises |}.

(** Four reply lines arrive for three commands. *)
Definition one_too_many : io_event :=
  {| sel_read := true; sel_write := false;
     on_send := SendOk 0;
     on_recv := RecvOk (stream [encode "1,0"; encode "2,0"; encode "3,0";
                                encode "4,0"]) |}.

Definition fresh_world {Request : Type} : world Request :=
  {| iterators := []; seq_iterations := 0; conn_sent := []; conn_rcvd := [];
     sockets := []; threads_started := 0 |}.

(** The stub server on the caller's connection. *)
Definition inline_env (reply : bytes -> bytes) (choices : list choice) : env :=
  {| conn_script := map (served reply) choices; net_plans := [];
     schedule := [] |}.

(** A worker that has drawn and sent the three block queries. *)
Definition three_sent : worker Vector (list Z) :=
  {| request_iter := []; answer_queue := [];
     sock_sent := stream (map (fun v => encode (fmt_getBlockWithData v))
                              three_blocks);
     sock_rcvd := [];
     more_requests := false; request_buffer := []; response_buffer := [];
     pending_request_queue := three_blocks |}.

(** Two threads, each with its own connection to the stub server, taking
    turns. *)
Definition two_threads_env : env :=
  {| conn_script := [];
     net_plans :=
       [ {| connect_ok := true;
            plan_script := map (served stub_reply) (repeat eager 4);
            shutdown_ok := true |};
         {| connect_ok := true;
            plan_script := map (served stub_reply) (repeat eager 4);
            shutdown_ok := true |} ];
     schedule := [0; 1; 0; 1; 0; 1; 0; 1] |}.

(** A peer that takes the three commands, answers the first and resets the
    connection. *)
Definition failing_script : list reaction :=
  [ scripted {| sel_read := false; sel_write := true;
                on_send := SendOk 4096; on_recv := RecvOk [] |};
    scripted {| sel_read := true; sel_write := false;
                on_send := SendOk 0;
                on_recv := RecvOk (encode "1,0" ++ [nl]) |};
    scripted peer_reset ].

(** One thread whose connection fails after the first answer; afterwards
    [shutdown] on that socket raises. *)
Definition failing_thread_env : env :=
  {| conn_script := failing_script;
     net_plans := [ {| connect_ok := true; plan_script := failing_script;
                       shutdown_ok := false |} ];
     schedule := [0; 0; 0; 0] |}.

(** ** Vocabulary for any peer *)

Section AnyPeer.
Context {Request Answer : Type}.
Variable fmt : Request -> string.

(** The worker's variables when [worker_fn] stops, however it stops. *)
Definition state_of (o : outcome Request Answer) : worker Request Answer :=
  match o with
  | Running w | Blocked w | Returned w | Raised _ w => w
  end.

(** What holds of the bytes sent, whoever the peer is: they and the send
    buffer are the commands of the requests drawn so far. *)
Inductive sent_inv (R : list Request) (w : worker Request Answer) : Prop :=
| mk_sent (drawn : list Request)
    (sent_all : R = drawn ++ request_iter w)
    (sent_wire : sock_sent w ++ request_buffer w = wire_of fmt drawn).

(** What holds between two passes, whoever the peer is: moreover the
    requests drawn are those with a pair in the answer queue followed by
    the pending ones. *)
Inductive order_inv (R : list Request) (w : worker Request Answer) : Prop :=
| mk_order (drawn : list Request)
    (ord_all : R = drawn ++ request_iter w)
    (ord_wire : sock_sent w ++ request_buffer w = wire_of fmt drawn)
    (ord_keys : drawn = map fst (answer_queue w) ++ pending_request_queue w)
    (ord_more : more_requests w = false -> request_iter w = []).

End AnyPeer.

(** A peer that takes whatever it is sent and answers ["9,9"] lines to every
    read, whether asked or not. *)
Definition babbler : reaction :=
  scripted {| sel_read := true; sel_write := true;
              on_send := SendOk 4096;
              on_recv := RecvOk (encode "9,9" ++ [nl]) |}.

(** A worker that has sent its one height query and waits for the reply,
    which arrives as ["4"] and then ["2\n"]. *)
Definition height_sent : worker (Z * Z) Z :=
  {| request_iter := []; answer_queue := [];
     sock_sent := encode "world.getHeight(0,0)" ++ [nl]; sock_rcvd := [];
     more_requests := false; request_buffer := []; response_buffer := [];
     pending_request_queue := [(0, 0)%Z] |}.

Definition reply_in_two_reads : list reaction :=
  [ scripted {| sel_read := true; sel_write := false;
                on_send := SendOk 0; on_recv := RecvOk (encode "4") |};
    scripted {| sel_read := true; sel_write := false;
                on_send := SendOk 0;
                on_recv := RecvOk (encode "2" ++ [nl]) |} ].

(** [send] accepts nothing. *)
Definition stalled_write : io_event :=
  {| sel_read := false; sel_write := true;
     on_send := SendOk 0; on_recv := RecvOk [] |}.

(** Nobody listens at the address. *)
Definition no_server : env :=
  {| conn_script := []; net_plans := []; schedule := [] |}.

(** A socket after a successful [connect], and after [shutdown] and
    [close]. *)
Definition connected_socket : sock_state :=
  {| sk_connected := true; sk_shutdown := false; sk_closed := false |}.
Definition closed_socket : sock_state :=
  {| sk_connected := true; sk_shutdown := true; sk_closed := true |}.

(** One thread on its own connection to the stub server, given time. *)
Definition one_thread_env : env :=
  {| conn_script := [];
     net_plans :=
       [ {| connect_ok := true;
            plan_script := map (served stub_reply) (repeat eager 110);
            shutdown_ok := true |} ];
     schedule := repeat 0 111 |}.

(** The value a dict built from [items] holds for [key]: that of the last
    pair with this key. *)
Definition latest {K V : Type} `{EqDecision K} (items : list (K * V)) (key : K)
  : option V :=
  fold_left (fun acc (item : K * V) =>
               if decide (item.1 = key) then Some item.2 else acc)
            items None.

(** A peer that takes whatever it is sent and answers ["9"] lines to every
    read. *)
Definition babbler_int : reaction :=
  scripted {| sel_read := true; sel_write := true;
              on_send := SendOk 4096;
              on_recv := RecvOk (encode "9" ++ [nl]) |}.


(** ** setup.py: the interpreter check *)

(** [sys.version_info]: three integers, the release level (a text) and the
    serial number. *)
Record version_info := {
  major : Z;
  minor : Z;
  micro : Z;
  releaselevel : string;
  serial : Z;
}.

Inductive item :=
| IInt (n : Z)
| IStr (s : string).

Definition as_tuple (v : version_info) : list item :=
  [IInt (major v); IInt (minor v); IInt (micro v); IStr (releaselevel v);
   IInt (serial v)].

(** Python's [>=] of a tuple with a tuple of integers: the first differing
    pair of items decides, and a tuple is not below its own prefix.  [None]
    stands for the comparison of a text with an integer, which Python 3
    refuses. *)
Fixpoint py_tuple_ge (a : list item) (b : list Z) : option bool :=
  match a, b with
  | _, [] => Some true
  | [], _ :: _ => Some false
  | IInt x :: a', y :: b' =>
      if (x =? y)%Z then py_tuple_ge a' b' else Some (y <? x)%Z
  | IStr _ :: _, _ :: _ => None
  end.

Inductive setup_check :=
| Proceeds
| ValueError (message : string)
| TypeError.

(** The test at the head of [setup.py]. *)
Definition check_interpreter (v : version_info) : setup_check :=
  if (major v =? 2)%Z then
    match py_tuple_ge (as_tuple v) [2; 7]%Z with
    | None => TypeError
    | Some ge =>
        if negb ge
        then ValueError "This package requires Python 2.7 or newer"
        else Proceeds
    end
  else if (major v =? 3)%Z then
    match py_tuple_ge (as_tuple v) [3; 4]%Z with
    | None => TypeError
    | Some ge =>
        if negb ge
        then ValueError "This package requires Python 3.4 or newer"
        else Proceeds
    end
  else ValueError "Unrecognized major version of Python".

(** * Properties *)

(** ** Line framing *)

Lemma byte_eqb_nl c : Byte.eqb c nl = bool_decide (c = nl).
Proof.
  case_bool_decide as H.
  - now apply Byte.byte_dec_lb.
  - destruct (Byte.eqb c nl) eqn:E; [|reflexivity].
    apply Byte.byte_dec_bl in E. contradiction.
Qed.

Lemma bytes_split_nonempty b : bytes_split b <> [].
Proof.
  destruct b as [|c b]; simpl; [discriminate|].
  destruct (Byte.eqb c nl); [discriminate|].
  destruct (bytes_split b); discriminate.
Qed.

Lemma bytes_split_cons_nl b : bytes_split (nl :: b) = [] :: bytes_split b.
Proof. reflexivity. Qed.

Lemma bytes_split_cons_other c b :
  c <> nl ->
  bytes_split (c :: b) =
    (c :: List.hd [] (bytes_split b)) :: List.tl (bytes_split b).
Proof.
  intros Hc. simpl. rewrite byte_eqb_nl, bool_decide_eq_false_2 by assumption.
  pose proof (bytes_split_nonempty b).
  destruct (bytes_split b); [contradiction|reflexivity].
Qed.

Lemma nl_free_cons c l : nl_free (c :: l) <-> c <> nl /\ nl_free l.
Proof.
  unfold nl_free. rewrite not_elem_of_cons. intuition congruence.
Qed.

Lemma nl_free_app l1 l2 : nl_free (l1 ++ l2) <-> nl_free l1 /\ nl_free l2.
Proof. unfold nl_free. rewrite not_elem_of_app. reflexivity. Qed.

Lemma nl_free_nil : nl_free [].
Proof. unfold nl_free. apply not_elem_of_nil. Qed.

(** A terminated line in front of the data is the first segment. *)
Lemma bytes_split_line l b :
  nl_free l -> bytes_split (l ++ nl :: b) = l :: bytes_split b.
Proof.
  induction l as [|c l IH]; intros Hl.
  - reflexivity.
  - apply nl_free_cons in Hl as [Hc Hl].
    rewrite <- app_comm_cons, bytes_split_cons_other by assumption.
    now rewrite IH.
Qed.

Lemma bytes_split_partial p : nl_free p -> bytes_split p = [p].
Proof.
  induction p as [|c p IH]; intros Hp; [reflexivity|].
  apply nl_free_cons in Hp as [Hc Hp].
  rewrite bytes_split_cons_other, IH by assumption. reflexivity.
Qed.

Lemma stream_cons l ls : stream (l :: ls) = l ++ nl :: stream ls.
Proof. unfold stream. simpl. now rewrite <- app_assoc. Qed.

Lemma stream_app ls1 ls2 : stream (ls1 ++ ls2) = stream ls1 ++ stream ls2.
Proof. unfold stream. now rewrite map_app, concat_app. Qed.

Lemma bytes_split_stream ls p :
  Forall nl_free ls -> nl_free p -> bytes_split (stream ls ++ p) = ls ++ [p].
Proof.
  induction 1 as [|l ls Hl Hls IH]; intros Hp; simpl.
  - now apply bytes_split_partial.
  - rewrite stream_cons, <- app_assoc, <- app_comm_cons.
    rewrite bytes_split_line by assumption. now rewrite IH.
Qed.

(** Splitting loses nothing: the complete segments and the trailing one
    rebuild the data, and no segment holds a terminator. *)
Lemma bytes_split_shape b :
  exists ls p, bytes_split b = ls ++ [p] /\ b = stream ls ++ p
               /\ Forall nl_free ls /\ nl_free p.
Proof.
  induction b as [|c b (ls & p & E & Eb & Hls & Hp)].
  - exists [], []. repeat split; [constructor | apply nl_free_nil].
  - destruct (decide (c = nl)) as [->|Hc].
    + exists ([] :: ls), p. rewrite bytes_split_cons_nl, E, stream_cons, Eb.
      repeat split; [|assumption]. constructor; [apply nl_free_nil|assumption].
    + rewrite bytes_split_cons_other, E by assumption.
      destruct ls as [|l ls].
      * exists [], (c :: p). subst b. repeat split; [constructor|].
        apply nl_free_cons. split; assumption.
      * exists ((c :: l) :: ls), p. inversion Hls; subst.
        rewrite !stream_cons. repeat split; [|assumption].
        constructor; [|assumption]. apply nl_free_cons. split; assumption.
Qed.

Lemma py_init_snoc (ls : list bytes) p : py_init (ls ++ [p]) = ls.
Proof. apply removelast_last. Qed.

Lemma py_last_snoc (ls : list bytes) p : py_last (ls ++ [p]) = p.
Proof. apply last_last. Qed.

(** The first terminator of a byte string is where it is. *)
Lemma first_line_unique l1 l2 x y :
  nl_free l1 -> nl_free l2 -> l1 ++ nl :: x = l2 ++ nl :: y ->
  l1 = l2 /\ x = y.
Proof.
  revert l2. induction l1 as [|c l1 IH]; intros [|d l2] H1 H2 E; simpl in E.
  - now inversion E.
  - inversion E; subst. apply nl_free_cons in H2 as [? _]. congruence.
  - inversion E; subst. apply nl_free_cons in H1 as [? _]. congruence.
  - inversion E; subst.
    apply nl_free_cons in H1 as [_ H1]. apply nl_free_cons in H2 as [_ H2].
    destruct (IH l2 H1 H2 H3) as [-> ->]. split; reflexivity.
Qed.

(** Framing: any prefix of a stream of lines splits into the first [j] lines
    and the beginning of the next. *)
Lemma bytes_split_prefix ls a b :
  Forall nl_free ls -> a ++ b = stream ls ->
  exists j p, bytes_split a = take j ls ++ [p]
              /\ p ++ b = stream (drop j ls)
              /\ nl_free p /\ j <= length ls.
Proof.
  intros Hls E.
  destruct (bytes_split_shape a) as (la & pa & Hsplit & -> & Jl & Jp).
  rewrite Hsplit. clear Hsplit.
  revert ls Hls E.
  induction Jl as [|l la Hl Hla IH]; intros ls Hls E.
  - exists 0, pa. simpl in *. repeat split; [assumption..|lia].
  - rewrite stream_cons, <- !app_assoc, <- app_comm_cons in E.
    destruct ls as [|l0 ls].
    { destruct l; discriminate. }
    rewrite stream_cons in E. inversion Hls as [|? ? Hl0 Hls']; subst.
    apply first_line_unique in E as [-> E]; [|assumption..].
    rewrite app_assoc in E.
    destruct (IH ls Hls' E) as (j & p & H1 & H2 & H3 & H4).
    exists (S j), p. simpl.
    apply app_inj_tail in H1 as [-> ->].
    repeat split; [assumption..|lia].
Qed.

(** A prefix of a stream of lines is its first [j] lines and the beginning
    of the next one. *)
Lemma stream_prefix ls a b :
  Forall nl_free ls -> a ++ b = stream ls ->
  exists j p, a = stream (take j ls) ++ p
              /\ bytes_split a = take j ls ++ [p]
              /\ p ++ b = stream (drop j ls)
              /\ nl_free p /\ j <= length ls.
Proof.
  intros Hls E.
  destruct (bytes_split_prefix ls a b Hls E) as (j & p & H1 & H2 & H3 & H4).
  exists j, p. repeat split; try assumption.
  destruct (bytes_split_shape a) as (la & pa & Hsplit & Ha & _).
  rewrite Hsplit in H1. apply app_inj_tail in H1 as [-> ->]. exact Ha.
Qed.

Lemma stream_has_nl l ls : nl ∈ stream (l :: ls).
Proof.
  rewrite stream_cons. apply elem_of_app. right. apply elem_of_cons. now left.
Qed.

Lemma nl_free_stream_nil ls p x :
  nl_free p -> p ++ x = stream ls -> nl_free x -> ls = [].
Proof.
  intros Hp E Hx. destruct ls as [|l ls]; [reflexivity|].
  exfalso. pose proof (stream_has_nl l ls) as Hin. rewrite <- E in Hin.
  apply elem_of_app in Hin as [Hin|Hin]; [apply Hp|apply Hx]; exact Hin.
Qed.

(** ** The worker against a well-behaved server *)

Section Correctness.
Context {Request Answer : Type}.
Variable fmt : Request -> string.
Variable parse_fn : string -> option Answer.
Variable reply : bytes -> bytes.
Variable answer_of : Request -> Answer.

Local Abbreviation cmd := (command fmt).
Local Abbreviation wire := (wire_of fmt).
Local Abbreviation replies := (replies_of fmt reply).
Local Abbreviation expected := (expected_of answer_of).
Local Abbreviation inv := (batch_inv fmt reply answer_of).
Local Abbreviation available := (available_of reply).
Local Abbreviation budget := (budget_of fmt reply).

(** Commands and replies are single lines, and the parser reads every
    reply. *)
Hypothesis fmt_line : forall r, nl_free (cmd r).
Hypothesis reply_line : forall r, nl_free (reply (cmd r)).
Hypothesis parse_reply :
  forall r, parse_fn (decode (reply (cmd r))) = Some (answer_of r).

Lemma wire_app l1 l2 : wire (l1 ++ l2) = wire l1 ++ wire l2.
Proof. unfold wire_of. now rewrite map_app, stream_app. Qed.

Lemma replies_app l1 l2 : replies (l1 ++ l2) = replies l1 ++ replies l2.
Proof. unfold replies_of. now rewrite map_app, stream_app. Qed.

Lemma expected_app l1 l2 : expected (l1 ++ l2) = expected l1 ++ expected l2.
Proof. unfold expected_of. now rewrite map_app. Qed.

Lemma cmds_nl_free l : Forall nl_free (map cmd l).
Proof. apply Forall_map, Forall_forall. intros r _. apply fmt_line. Qed.

Lemma replies_nl_free l : Forall nl_free (map (fun r => reply (cmd r)) l).
Proof. apply Forall_map, Forall_forall. intros r _. apply reply_line. Qed.

(** What the server has written after a number of whole commands and the
    beginning of the next. *)
Lemma server_output_wire l p :
  nl_free p -> server_output reply (wire l ++ p) = replies l.
Proof.
  intros Hp. unfold server_output, wire_of.
  rewrite bytes_split_stream by (apply cmds_nl_free || assumption).
  rewrite py_init_snoc. unfold replies_of. now rewrite map_map.
Qed.

Lemma inv_init R : inv R (worker_init R []).
Proof.
  apply (mk_inv fmt reply answer_of _ _ [] [] [] [] []);
    simpl; try reflexivity; try apply nl_free_nil; discriminate.
Qed.

(** The inner loop draws a run of requests in order and stops on a full
    buffer or an exhausted iterator. *)
Lemma grab_requests_spec it more rb pq it' more' rb' pq' :
  grab_requests fmt it more rb pq = (it', more', rb', pq') ->
  exists drawn,
    it = drawn ++ it' /\ rb' = rb ++ wire drawn /\ pq' = pq ++ drawn
    /\ (more' = false -> more = false \/ it' = [])
    /\ (more' = true -> (4096 <= Z.of_nat (length rb'))%Z).
Proof.
  revert rb pq. induction it as [|pos it IH]; intros rb pq E; simpl in E.
  - destruct more; simpl in E.
    + destruct (Z.ltb_spec (Z.of_nat (length rb)) 4096);
        inversion E; subst; exists []; simpl; rewrite !app_nil_r;
        repeat split; auto; try discriminate.
    + inversion E; subst. exists []. simpl. rewrite !app_nil_r.
      repeat split; auto; discriminate.
  - destruct more; simpl in E.
    + destruct (Z.ltb_spec (Z.of_nat (length rb)) 4096).
      * apply IH in E as (drawn & E1 & E2 & E3 & E4 & E5).
        exists (pos :: drawn).
        assert (Hw : wire (pos :: drawn) = encode (fmt pos) ++ [nl] ++ wire drawn).
        { unfold wire_of. simpl map. rewrite stream_cons. reflexivity. }
        rewrite Hw. repeat split.
        -- simpl. now rewrite E1.
        -- rewrite E2, <- !app_assoc. reflexivity.
        -- rewrite E3, <- app_assoc. reflexivity.
        -- intros H'. destruct (E4 H'); [discriminate | now right].
        -- exact E5.
      * inversion E; subst. exists []. simpl. rewrite !app_nil_r.
        repeat split; auto; discriminate.
    + inversion E; subst. exists []. simpl. rewrite !app_nil_r.
      repeat split; auto; discriminate.
Qed.

Lemma grab_inv R w : inv R w -> inv R (grab fmt w).
Proof.
  intros [ans fd unf p tr H1 H2 H3 H4 H5 H6 H7 H8 H9 H10].
  unfold grab.
  destruct (grab_requests fmt _ _ _ _) as [[[it' more'] rb'] pq'] eqn:E.
  apply grab_requests_spec in E as (drawn & E1 & E2 & E3 & E4 & E5).
  apply (mk_inv fmt reply answer_of _ _ ans fd (unf ++ drawn) p tr); simpl; try assumption.
  - rewrite H1, E1, <- !app_assoc. reflexivity.
  - rewrite E3, H2, <- app_assoc. reflexivity.
  - rewrite E2, wire_app, app_assoc, H6. reflexivity.
  - intros Hm. destruct (E4 Hm) as [Hm'|?]; [|assumption].
    specialize (H10 Hm'). rewrite H10 in E1.
    symmetry in E1. apply app_eq_nil in E1 as [_ ?]. assumption.
Qed.

Lemma grab_logs (w : worker Request Answer) :
  sock_sent (grab fmt w) = sock_sent w /\ sock_rcvd (grab fmt w) = sock_rcvd w.
Proof.
  unfold grab. destruct (grab_requests fmt _ _ _ _) as [[[? ?] ?] ?].
  split; reflexivity.
Qed.

Lemma grab_full (w : worker Request Answer) :
  more_requests (grab fmt w) = true ->
  (4096 <= Z.of_nat (length (request_buffer (grab fmt w))))%Z.
Proof.
  unfold grab.
  destruct (grab_requests fmt _ _ _ _) as [[[it' more'] rb'] pq'] eqn:E.
  apply grab_requests_spec in E as (drawn & _ & _ & _ & _ & E5). exact E5.
Qed.

(** Complete reply lines are matched with the head of the pending queue. *)
Lemma match_responses_replies l pq aq :
  match_responses parse_fn (map (fun r => reply (cmd r)) l) (l ++ pq) aq
  = (None, pq, aq ++ expected l).
Proof.
  revert aq. induction l as [|r l IH]; intros aq; simpl.
  - now rewrite app_nil_r.
  - rewrite parse_reply, IH, <- app_assoc. reflexivity.
Qed.

Lemma after_io_nothing (w : worker Request Answer) : after_io 0 [] w = w.
Proof.
  destruct w. unfold after_io. simpl. now rewrite !app_nil_r.
Qed.

Lemma py_eq_positive n : 0 < n -> py_eq (PyInt (Z.of_nat n)) (PyInt 0) = false.
Proof. intros H. simpl. apply Z.eqb_neq. lia. Qed.

(** With this server no transport call fails: a pass is one (possibly
    empty) write, one (possibly empty) read, and the parsing step. *)
Lemma io_and_parse_served c (w : worker Request Answer) :
  let avail := drop (length (sock_rcvd w))
                    (server_output reply (sock_sent w)) in
  let k := if ((0 <? Z.of_nat (length (request_buffer w)))%Z
               && (0 <? ch_write c)%nat)
           then ch_write c else 0 in
  let d := if ((0 <? ch_read c)%nat && (0 <? length avail)%nat)
           then take (Nat.min (ch_read c) 1024) avail else [] in
  io_and_parse parse_fn (served reply c (sock_sent w) (sock_rcvd w)) w
  = parse_responses parse_fn (after_io k d w).
Proof.
  intros avail k d. unfold io_and_parse, served. simpl.
  fold avail. subst k d.
  destruct (0 <? Z.of_nat (length (request_buffer w)))%Z eqn:Ew; simpl.
  - destruct (Nat.ltb_spec 0 (ch_write c)) as [Hw|Hw]; simpl.
    + unfold write_once. simpl on_send. cbv iota.
      rewrite py_eq_positive by assumption.
      destruct ((0 <? ch_read c)%nat && (0 <? length avail)%nat); simpl.
      * reflexivity.
      * unfold after_io. simpl. now rewrite !app_nil_r.
    + destruct ((0 <? ch_read c)%nat && (0 <? length avail)%nat); simpl.
      * unfold after_io. simpl. now rewrite !app_nil_r.
      * now rewrite after_io_nothing.
  - destruct ((0 <? ch_read c)%nat && (0 <? length avail)%nat); simpl.
    + unfold after_io. simpl. now rewrite !app_nil_r.
    + now rewrite after_io_nothing.
Qed.

Lemma inv_available R w :
  inv R w ->
  exists fd tr, available w = tr
                /\ response_buffer w ++ tr = replies fd
                /\ (request_buffer w = [] -> pending_request_queue w = fd).
Proof.
  intros [ans fd unf p tr H1 H2 H3 H4 H5 H6 H7 H8 H9 H10].
  exists fd, tr. repeat split; [|assumption|].
  - unfold available_of. rewrite H4, server_output_wire by assumption.
    rewrite replies_app, <- H9, H7, app_assoc. apply drop_app_length.
  - intros Hrb. rewrite Hrb in H6.
    assert (unf = []) as ->.
    { apply (nl_free_stream_nil (map cmd unf) p []) in H6;
        [|assumption|apply nl_free_nil].
      now apply map_eq_nil in H6. }
    now rewrite app_nil_r in H2.
Qed.

(** One pass against the server keeps the invariant, whatever amounts the
    transport moves. *)
Lemma pass_inv R w k n :
  inv R w ->
  exists w',
    parse_responses parse_fn (after_io k (take n (available w)) w)
    = Running w'
    /\ inv R w'
    /\ sock_sent w' = sock_sent w ++ take k (request_buffer w)
    /\ sock_rcvd w' = sock_rcvd w ++ take n (available w).
Proof.
  intros Hinv. destruct (inv_available R w Hinv) as (fd0 & tr0 & Hav & _).
  destruct Hinv as [ans fd unf p tr H1 H2 H3 H4 H5 H6 H7 H8 H9 H10].
  assert (Htr : available w = tr).
  { unfold available_of. rewrite H4, server_output_wire by assumption.
    rewrite replies_app, <- H9, H7, app_assoc. apply drop_app_length. }
  rewrite Htr. clear fd0 tr0 Hav Htr.
  destruct w as [it aq sent rcvd more rb resp pq]. simpl in *.
  (* the write *)
  assert (E6 : (p ++ take k rb) ++ drop k rb = wire unf).
  { now rewrite <- app_assoc, take_drop. }
  apply stream_prefix in E6 as (j & p' & S1 & _ & S3 & S4 & S5);
    [|apply cmds_nl_free].
  rewrite firstn_map in S1. rewrite skipn_map in S3.
  (* the read *)
  assert (E9 : (resp ++ take n tr) ++ drop n tr = replies fd).
  { now rewrite <- app_assoc, take_drop. }
  apply stream_prefix in E9 as (i & q & T1 & T2 & T3 & T4 & T5);
    [|apply replies_nl_free].
  rewrite firstn_map in T1, T2. rewrite skipn_map in T3.
  remember (take i fd) as fa eqn:Efa. remember (drop i fd) as fb eqn:Efb.
  assert (Efd : fd = fa ++ fb) by (subst fa fb; symmetry; apply take_drop).
  remember (take j unf) as ua eqn:Eua. remember (drop j unf) as ub eqn:Eub.
  assert (Eunf : unf = ua ++ ub) by (subst ua ub; symmetry; apply take_drop).
  clear Efa Efb Eua Eub. subst fd unf.
  unfold parse_responses, after_io. simpl.
  rewrite T2, py_init_snoc, py_last_snoc.
  rewrite H2, <- app_assoc, match_responses_replies.
  eexists. split; [reflexivity|]. split; [|split; reflexivity].
  apply (mk_inv fmt reply answer_of _ _ (ans ++ fa) (fb ++ ua) ub p'
                (drop n tr ++ replies ua));
    simpl; try assumption.
  - rewrite H1. now rewrite <- !app_assoc.
  - now rewrite <- !app_assoc.
  - rewrite H3. symmetry. apply expected_app.
  - rewrite H4, <- app_assoc, S1.
    fold (wire ua). rewrite !wire_app. now rewrite <- !app_assoc.
  - rewrite H7, <- app_assoc, T1.
    change (stream (map (fun r => reply (cmd r)) fa)) with (replies fa).
    rewrite replies_app. now rewrite <- !app_assoc.
  - rewrite app_assoc, T3.
    change (stream (map (fun r => reply (cmd r)) fb)) with (replies fb).
    now rewrite replies_app.
Qed.

Lemma inv_progress R w : inv R w -> progress w <= budget R.
Proof.
  intros [ans fd unf p tr H1 H2 H3 H4 H5 H6 H7 H8 H9 H10].
  unfold progress, budget. rewrite H4, H7, H1.
  apply (f_equal (@length byte)) in H6, H9. rewrite length_app in H6, H9.
  repeat (rewrite ?wire_app, ?replies_app, ?length_app). lia.
Qed.

Lemma loop_test_false (w : worker Request Answer) :
  loop_test w = false ->
  more_requests w = false /\ pending_request_queue w = [].
Proof.
  unfold loop_test. intros H. apply orb_false_elim in H as [Hm Hp].
  split; [assumption|].
  destruct (pending_request_queue w); [reflexivity|].
  simpl length in Hp. apply Z.ltb_ge in Hp. lia.
Qed.

Lemma inv_returned R w :
  inv R w -> loop_test w = false ->
  answer_queue w = expected R /\ request_iter w = [].
Proof.
  intros [ans fd unf p tr H1 H2 H3 H4 H5 H6 H7 H8 H9 H10] Ht.
  apply loop_test_false in Ht as [Hm Hp].
  specialize (H10 Hm). rewrite Hp in H2. symmetry in H2.
  apply app_eq_nil in H2 as [-> ->].
  rewrite H10 in H1. simpl in H1. rewrite app_nil_r in H1. subst R.
  split; assumption.
Qed.

(** A pass in which the transport is ready both ways moves at least one
    byte. *)
Lemma served_pass R c w :
  inv R w -> loop_test w = true ->
  (more_requests w = true ->
   (4096 <= Z.of_nat (length (request_buffer w)))%Z) ->
  exists w',
    io_and_parse parse_fn (served reply c (sock_sent w) (sock_rcvd w)) w
    = Running w'
    /\ inv R w'
    /\ progress w <= progress w'
    /\ (ready c = true -> progress w < progress w').
Proof.
  intros Hinv Ht Hfull.
  rewrite io_and_parse_served. fold (available w).
  set (k := if (_ && _) then ch_write c else 0).
  set (d := if (_ && _) then _ else []).
  assert (Hd : exists n, d = take n (available w)
                         /\ (ready c = true -> 0 < length (available w) ->
                             0 < length d)).
  { subst d. destruct (Nat.ltb_spec 0 (ch_read c)) as [Hr|Hr]; simpl.
    - destruct (Nat.ltb_spec 0 (length (available w))) as [Ha|Ha]; simpl.
      + eexists. split; [reflexivity|]. intros _ _.
        rewrite length_take. lia.
      + exists 0. split; [reflexivity|]. intros _ ?. lia.
    - exists 0. split; [reflexivity|]. unfold ready.
      intros Hc. apply andb_true_iff in Hc as [_ Hc].
      apply Nat.ltb_lt in Hc. lia. }
  destruct Hd as (n & -> & Hd).
  destruct (pass_inv R w k n Hinv) as (w' & E & Hinv' & Es & Er).
  exists w'. split; [exact E|]. split; [exact Hinv'|].
  unfold progress. rewrite Es, Er, !length_app. split; [lia|].
  intros Hc.
  destruct (request_buffer w) as [|b rb] eqn:Erb.
  - (* nothing to write: every command is out, replies are waiting *)
    destruct (more_requests w) eqn:Em.
    { specialize (Hfull eq_refl). simpl in Hfull. lia. }
    destruct (inv_available R w Hinv) as (fd & tr & Hav & Htr & Hpq).
    specialize (Hpq Erb).
    assert (Hne : 0 < length (available w)).
    { rewrite Hav. destruct tr as [|t tr]; [|simpl; lia]. exfalso.
      rewrite app_nil_r in Htr.
      destruct fd as [|r fd].
      - unfold loop_test in Ht. rewrite Em, Hpq in Ht. discriminate.
      - destruct Hinv as [? ? ? ? ? ? ? ? ? ? ? ? H8 ? ?].
        apply H8. rewrite Htr. unfold replies_of. simpl map.
        apply stream_has_nl. }
    specialize (Hd Hc Hne). lia.
  - (* a non-empty buffer and a writable socket *)
    assert (0 < length (take k (b :: rb))); [|lia].
    subst k. unfold ready in Hc. apply andb_true_iff in Hc as [Hc _].
    rewrite Hc. simpl length at 1.
    replace (0 <? Z.of_nat (S (length rb)))%Z with true
      by (symmetry; apply Z.ltb_lt; lia).
    simpl andb. cbv iota. apply Nat.ltb_lt in Hc.
    rewrite length_take. simpl length. lia.
Qed.

(** Total correctness of the worker: against a server that answers every
    command, and once the transport was ready often enough to move every
    byte, the loop has returned with the answer of every request, in
    order. *)
Lemma worker_fn_served choices : forall R w,
  inv R w -> budget R - progress w < count_ready choices ->
  exists w',
    worker_fn fmt parse_fn (map (served reply) choices) w = Returned w'
    /\ answer_queue w' = expected R
    /\ request_iter w' = []
    /\ more_requests w' = false
    /\ pending_request_queue w' = [].
Proof.
  induction choices as [|c choices IH]; intros R w Hinv Hlt.
  - unfold count_ready in Hlt. simpl in Hlt. lia.
  - simpl worker_fn.
    destruct (loop_test w) eqn:Ht.
    2:{ exists w. destruct (inv_returned R w Hinv Ht) as [? ?].
        destruct (loop_test_false w Ht) as [? ?]. auto. }
    pose proof (grab_inv R w Hinv) as Hinv1.
    destruct (loop_test (grab fmt w)) eqn:Ht1.
    2:{ exists (grab fmt w).
        destruct (inv_returned R _ Hinv1 Ht1) as [? ?].
        destruct (loop_test_false _ Ht1) as [? ?]. auto. }
    destruct (served_pass R c _ Hinv1 Ht1 (grab_full w))
      as (w2 & E & Hinv2 & Hle & Hready).
    rewrite E. apply IH; [exact Hinv2|].
    destruct (grab_logs w) as [Gs Gr].
    assert (Hp1 : progress (grab fmt w) = progress w).
    { unfold progress. now rewrite Gs, Gr. }
    pose proof (inv_progress R w2 Hinv2) as Hb.
    unfold count_ready in *. simpl List.filter in Hlt.
    destruct (ready c) eqn:Hc.
    + specialize (Hready eq_refl). simpl in Hlt. lia.
    + lia.
Qed.

(** Whatever the transport does, the worker against this server is either
    done, with every answer in order, or still waiting; it never raises. *)
Lemma worker_fn_served_any choices : forall R w,
  inv R w ->
  (exists w',
      worker_fn fmt parse_fn (map (served reply) choices) w = Returned w'
      /\ answer_queue w' = expected R)
  \/ (exists w',
      worker_fn fmt parse_fn (map (served reply) choices) w = Blocked w').
Proof.
  induction choices as [|c choices IH]; intros R w Hinv.
  - simpl worker_fn.
    destruct (loop_test w) eqn:Ht.
    2:{ left. exists w. destruct (inv_returned R w Hinv Ht). auto. }
    pose proof (grab_inv R w Hinv) as Hinv1.
    destruct (loop_test (grab fmt w)) eqn:Ht1; [right; eauto|].
    left. exists (grab fmt w). destruct (inv_returned R _ Hinv1 Ht1). auto.
  - simpl worker_fn.
    destruct (loop_test w) eqn:Ht.
    2:{ left. exists w. destruct (inv_returned R w Hinv Ht). auto. }
    pose proof (grab_inv R w Hinv) as Hinv1.
    destruct (loop_test (grab fmt w)) eqn:Ht1.
    2:{ left. exists (grab fmt w).
        destruct (inv_returned R _ Hinv1 Ht1). auto. }
    destruct (served_pass R c _ Hinv1 Ht1 (grab_full w))
      as (w2 & E & Hinv2 & _).
    rewrite E. apply IH. exact Hinv2.
Qed.

End Correctness.

(** ** The steps of a pass *)

Section Steps.
Context {Request Answer : Type}.
Variable fmt : Request -> string.
Variable parse_fn : string -> option Answer.

Lemma bytes_split_stream_app ls x :
  Forall nl_free ls -> bytes_split (stream ls ++ x) = ls ++ bytes_split x.
Proof.
  induction 1 as [|l ls Hl Hls IH]; [reflexivity|].
  rewrite stream_cons, <- app_assoc, <- app_comm_cons.
  rewrite bytes_split_line by assumption. now rewrite IH.
Qed.

(** Splitting more data: the complete segments stay, the trailing one is
    continued. *)
Lemma bytes_split_app a b la pa :
  bytes_split a = la ++ [pa] ->
  bytes_split (a ++ b) = la ++ bytes_split (pa ++ b).
Proof.
  intros E. destruct (bytes_split_shape a) as (la' & pa' & E' & -> & Hl & Hp).
  rewrite E in E'. apply app_inj_tail in E' as [-> ->].
  rewrite <- app_assoc. now apply bytes_split_stream_app.
Qed.

Lemma match_responses_app l1 l2 pq (aq : list (Request * Answer)) :
  match_responses parse_fn (l1 ++ l2) pq aq =
    match match_responses parse_fn l1 pq aq with
    | (None, pq1, aq1) => match_responses parse_fn l2 pq1 aq1
    | failed => failed
    end.
Proof.
  revert pq aq. induction l1 as [|l l1 IH]; intros pq aq; simpl.
  - reflexivity.
  - destruct pq as [|r pq]; [reflexivity|].
    destruct (parse_fn (decode l)); [apply IH|reflexivity].
Qed.

(** A read never raises on account of its length: a [bytes] object is
    not equal to [0]. *)
Lemma read_once_data ev data (w : worker Request Answer) :
  on_recv ev = RecvOk data -> read_once ev w = Running (received data w).
Proof. intros E. unfold read_once. rewrite E. reflexivity. Qed.

Lemma read_once_raises ev (w w' : worker Request Answer) ex :
  read_once ev w = Raised ex w' -> ex = SocketError.
Proof.
  unfold read_once. destruct (on_recv ev); simpl; intros E; now inversion E.
Qed.

(** What the parsing step does when no line fails. *)
Lemma parse_responses_running (w w' : worker Request Answer) :
  parse_responses parse_fn w = Running w' <->
  exists pq aq,
    match_responses parse_fn (complete_lines (response_buffer w))
                    (pending_request_queue w) (answer_queue w)
    = (None, pq, aq)
    /\ w' = {| request_iter := request_iter w; answer_queue := aq;
               sock_sent := sock_sent w; sock_rcvd := sock_rcvd w;
               more_requests := more_requests w;
               request_buffer := request_buffer w;
               response_buffer := py_last (bytes_split (response_buffer w));
               pending_request_queue := pq |}.
Proof.
  unfold parse_responses, complete_lines.
  destruct (match_responses parse_fn _ _ _) as [[[ex|] pq] aq]; split.
  - discriminate.
  - intros (? & ? & E & _). discriminate.
  - intros E. inversion E. eauto.
  - intros (? & ? & E & ->). now inversion E.
Qed.

Lemma parse_responses_resp (w w' : worker Request Answer) :
  parse_responses parse_fn w = Running w' -> nl_free (response_buffer w').
Proof.
  intros E. apply parse_responses_running in E as (pq & aq & _ & ->). simpl.
  destruct (bytes_split_shape (response_buffer w)) as (ls & p & E & _ & _ & Hp).
  now rewrite E, py_last_snoc.
Qed.

(** A pass with nothing to send in which [recv] returns [data]: the read,
    then the parsing step. *)
Lemma io_and_parse_read ev data (w : worker Request Answer) :
  request_buffer w = [] -> sel_read ev = true -> on_recv ev = RecvOk data ->
  io_and_parse parse_fn ev w = parse_responses parse_fn (received data w).
Proof.
  intros Hb Hr Hd. unfold io_and_parse. rewrite Hb, Hr. simpl.
  now rewrite (read_once_data _ _ _ Hd).
Qed.

(** More data: the complete lines stay, the trailing segment is
    continued. *)
Lemma complete_lines_app a b la pa :
  bytes_split a = la ++ [pa] ->
  complete_lines (a ++ b) = la ++ complete_lines (pa ++ b)
  /\ py_last (bytes_split (a ++ b)) = py_last (bytes_split (pa ++ b)).
Proof.
  intros E. unfold complete_lines. rewrite (bytes_split_app _ b _ _ E).
  destruct (bytes_split_shape (pa ++ b)) as (l2 & p2 & E2 & _).
  rewrite E2, app_assoc, !py_init_snoc, !py_last_snoc. split; reflexivity.
Qed.

(** Lines that all parse, no more of them than pending requests: each is
    paired with the oldest pending request. *)
Lemma match_responses_all lines answers :
  forall pq (aq : list (Request * Answer)),
  Forall2 (fun line a => parse_fn (decode line) = Some a) lines answers ->
  length lines <= length pq ->
  match_responses parse_fn lines pq aq
  = (None, drop (length lines) pq,
     aq ++ zip (take (length lines) pq) answers).
Proof.
  intros pq aq F. revert pq aq.
  induction F as [|l a lines answers P F IH]; intros pq aq Hlen; simpl.
  - now rewrite app_nil_r.
  - destruct pq as [|r pq]; [simpl in Hlen; lia|].
    rewrite P, IH by (simpl in Hlen; lia).
    simpl. now rewrite <- app_assoc.
Qed.

Lemma zip_take_app n1 : forall n2 (pq : list Request) (a1 a2 : list Answer),
  length a1 = n1 -> n1 <= length pq ->
  zip (take (n1 + n2) pq) (a1 ++ a2)
  = zip (take n1 pq) a1 ++ zip (take n2 (drop n1 pq)) a2.
Proof.
  induction n1 as [|n1 IH]; intros n2 pq a1 a2 Hl Hle;
    destruct a1 as [|a a1]; simpl in Hl; try discriminate.
  - reflexivity.
  - destruct pq as [|r pq]; simpl in Hle; [lia|].
    simpl. f_equal. apply IH; lia.
Qed.

(** A worker that waits with a line-free receive buffer, written out. *)
Lemma waiting_state (w : worker Request Answer) :
  more_requests w = false -> request_buffer w = [] ->
  nl_free (response_buffer w) ->
  {| request_iter := request_iter w;
     answer_queue := answer_queue w ++ [];
     sock_sent := sock_sent w;
     sock_rcvd := sock_rcvd w ++ [];
     more_requests := false;
     request_buffer := [];
     response_buffer := py_last (bytes_split (response_buffer w ++ []));
     pending_request_queue := pending_request_queue w |} = w.
Proof.
  intros Hm Hb Hf. rewrite !app_nil_r, bytes_split_partial by assumption.
  destruct w; simpl in *; subst; reflexivity.
Qed.

(** The matching loop pairs the lines, in order, with the oldest pending
    requests. *)
Lemma match_responses_ok lines : forall pq aq pq' (aq' : list (Request * Answer)),
  match_responses parse_fn lines pq aq = (None, pq', aq') ->
  exists answers,
    Forall2 (fun line a => parse_fn (decode line) = Some a) lines answers
    /\ length lines <= length pq
    /\ pq' = drop (length lines) pq
    /\ aq' = aq ++ zip (take (length lines) pq) answers.
Proof.
  induction lines as [|l lines IH]; intros pq aq pq' aq' E; simpl in E.
  - inversion E; subst. exists []. simpl. rewrite app_nil_r.
    repeat split; [constructor|lia].
  - destruct pq as [|r pq]; [discriminate|].
    destruct (parse_fn (decode l)) as [a|] eqn:P; [|discriminate].
    apply IH in E as (answers & F & Hlen & -> & ->).
    exists (a :: answers). simpl. rewrite <- app_assoc.
    repeat split; [now constructor|lia].
Qed.

Lemma match_responses_index lines : forall pq (aq : list (Request * Answer)),
  length lines <= length pq ->
  (match_responses parse_fn lines pq aq).1.1 <> Some IndexError.
Proof.
  induction lines as [|l lines IH]; intros pq aq H; simpl.
  - discriminate.
  - destruct pq as [|r pq]; [simpl in H; lia|].
    destruct (parse_fn (decode l)); [|discriminate].
    apply IH. simpl in H. lia.
Qed.

End Steps.

Section Loop.
Context {Request Answer : Type}.
Variable fmt : Request -> string.
Variable parse_fn : string -> option Answer.

Lemma worker_fn_cons react script (w : worker Request Answer) :
  worker_fn fmt parse_fn (react :: script) w =
    if loop_test w then
      if loop_test (grab fmt w) then
        match io_and_parse parse_fn
                (react (sock_sent (grab fmt w)) (sock_rcvd (grab fmt w)))
                (grab fmt w) with
        | Running w2 => worker_fn fmt parse_fn script w2
        | o => o
        end
      else Returned (grab fmt w)
    else Returned w.
Proof. reflexivity. Qed.

Lemma worker_fn_nil (w : worker Request Answer) :
  worker_fn fmt parse_fn [] w =
    if loop_test w then
      if loop_test (grab fmt w) then Blocked (grab fmt w)
      else Returned (grab fmt w)
    else Returned w.
Proof. reflexivity. Qed.

(** Without [more_requests] nothing is drawn. *)
Lemma grab_idle (w : worker Request Answer) :
  more_requests w = false -> grab fmt w = w.
Proof.
  intros H. unfold grab. rewrite H.
  destruct (request_iter w) eqn:E; simpl; destruct w; simpl in *; congruence.
Qed.

Lemma loop_test_grab (w : worker Request Answer) :
  loop_test (grab fmt w) = true -> loop_test w = true.
Proof.
  destruct (more_requests w) eqn:E.
  - intros _. unfold loop_test. now rewrite E.
  - now rewrite grab_idle.
Qed.

Lemma parse_responses_shape (w : worker Request Answer) :
  (exists w', parse_responses parse_fn w = Running w')
  \/ (exists ex w', parse_responses parse_fn w = Raised ex w').
Proof.
  unfold parse_responses.
  destruct (match_responses parse_fn _ _ _) as [[[ex|] pq] aq]; eauto.
Qed.

(** A pass ends at the loop test or with an exception. *)
Lemma io_and_parse_shape ev (w : worker Request Answer) :
  (exists w', io_and_parse parse_fn ev w = Running w')
  \/ (exists ex w', io_and_parse parse_fn ev w = Raised ex w').
Proof.
  unfold io_and_parse.
  assert (Hw : forall w0 : worker Request Answer,
             (exists w', write_once ev w0 = Running w')
             \/ (exists ex w', write_once ev w0 = Raised ex w')).
  { intros w0. unfold write_once. destruct (on_send ev); [|eauto].
    destruct (py_eq _ _); eauto. }
  assert (Hr : forall w0 : worker Request Answer,
             (exists w', read_once ev w0 = Running w')
             \/ (exists ex w', read_once ev w0 = Raised ex w')).
  { intros w0. unfold read_once. destruct (on_recv ev); [|eauto].
    destruct (py_eq _ _); eauto. }
  destruct (_ && sel_write ev).
  - destruct (Hw w) as [[w1 ->]|(ex & w1 & ->)]; [|eauto].
    destruct (sel_read ev).
    + destruct (Hr w1) as [[w2 ->]|(ex & w2 & ->)]; [|eauto].
      apply parse_responses_shape.
    + apply parse_responses_shape.
  - destruct (sel_read ev).
    + destruct (Hr w) as [[w2 ->]|(ex & w2 & ->)]; [|eauto].
      apply parse_responses_shape.
    + apply parse_responses_shape.
Qed.

(** The worker returns only with nothing left to draw and nothing
    pending. *)
Lemma worker_fn_returned script : forall (w w' : worker Request Answer),
  worker_fn fmt parse_fn script w = Returned w' ->
  more_requests w' = false /\ pending_request_queue w' = [].
Proof.
  assert (Hf : forall w : worker Request Answer, loop_test w = false ->
               more_requests w = false /\ pending_request_queue w = []).
  { intros w H. unfold loop_test in H. apply orb_false_elim in H as [Hm Hp].
    split; [assumption|]. destruct (pending_request_queue w); [reflexivity|].
    simpl length in Hp. apply Z.ltb_ge in Hp. lia. }
  induction script as [|react script IH]; intros w w'.
  - rewrite worker_fn_nil.
    destruct (loop_test w) eqn:T; [|intros E; inversion E; subst; auto].
    destruct (loop_test (grab fmt w)) eqn:T1; [discriminate|].
    intros E; inversion E; subst; auto.
  - rewrite worker_fn_cons.
    destruct (loop_test w) eqn:T; [|intros E; inversion E; subst; auto].
    destruct (loop_test (grab fmt w)) eqn:T1;
      [|intros E; inversion E; subst; auto].
    destruct (io_and_parse_shape
                (react (sock_sent (grab fmt w)) (sock_rcvd (grab fmt w)))
                (grab fmt w)) as [[w2 ->]|(ex & w2 & ->)].
    + apply IH.
    + discriminate.
Qed.

End Loop.

(** ** The generator *)

Section Generator.
Context {Request Answer : Type}.
Variable fmt : Request -> string.
Variable parse_fn : string -> option Answer.

(** Draining takes one [next] per queued pair and one more. *)
Lemma gen_drain_queue e q : forall (g : generator Request Answer) wd fuel,
  gen_at g = GenDraining -> gen_queue g = q -> length q < fuel ->
  gen_drain fmt parse_fn fuel e g wd = (Collected q, wd).
Proof.
  induction q as [|v q IH]; intros g wd [|fuel] Hat Hq Hlen;
    simpl in Hlen; try lia; simpl; unfold gen_next; rewrite Hat, Hq; simpl.
  - reflexivity.
  - rewrite IH; [reflexivity| reflexivity | reflexivity | lia].
Qed.

(** A consumer gets the whole queue the body leaves. *)
Lemma py_collect_done e (g : generator Request Answer) wd aq wd' :
  gen_at g = GenCreated ->
  run_body fmt parse_fn e g wd = (BodyDone aq, wd') ->
  py_collect fmt parse_fn e g wd = (Collected aq, wd').
Proof.
  intros Hat Hb. unfold py_collect, gen_next. rewrite Hat, Hb.
  destruct aq as [|v aq]; unfold drain_step; [reflexivity|].
  cbv beta iota.
  rewrite gen_drain_queue with (q := aq); [reflexivity..|simpl; lia].
Qed.

Lemma py_collect_raised e (g : generator Request Answer) wd ex wd' :
  gen_at g = GenCreated ->
  run_body fmt parse_fn e g wd = (BodyRaised ex, wd') ->
  py_collect fmt parse_fn e g wd = (Failed ex [], wd').
Proof.
  intros Hat Hb. unfold py_collect, gen_next. now rewrite Hat, Hb.
Qed.

Lemma py_iter_denotes requests (wd : world Request) R :
  denotes requests wd R ->
  iterator_items (py_iter requests wd).2 (py_iter requests wd).1 = R.
Proof.
  unfold denotes, iterator_items. destruct requests as [items|h]; simpl.
  - intros ->. now rewrite list_lookup_middle.
  - intros ->. reflexivity.
Qed.

End Generator.

(** ** The inline batch against a well-behaved server *)

Section InlineBatch.
Context {Request Answer : Type}.
Variable fmt : Request -> string.
Variable parse_fn : string -> option Answer.
Variable reply : bytes -> bytes.
Variable answer_of : Request -> Answer.

Hypothesis fmt_line : forall r, nl_free (command fmt r).
Hypothesis reply_line : forall r, nl_free (reply (command fmt r)).
Hypothesis parse_reply :
  forall r, parse_fn (decode (reply (command fmt r))) = Some (answer_of r).

Lemma run_inline_served requests R wd e choices :
  denotes requests wd R ->
  conn_script e = map (served reply) choices ->
  budget_of fmt reply R < count_ready choices ->
  exists w' : worker Request Answer,
    run_inline fmt parse_fn e requests wd
    = (Returned w', inline_world requests wd w')
    /\ answer_queue w' = expected_of answer_of R
    /\ request_iter w' = [].
Proof.
  intros Hden Hscript Hfuel.
  pose proof (py_iter_denotes requests wd R Hden) as Hit.
  unfold run_inline, inline_world.
  destruct (py_iter requests wd) as [h wd1]. simpl in Hit |- *.
  rewrite Hit, Hscript.
  destruct (worker_fn_served fmt parse_fn reply answer_of
              fmt_line reply_line parse_reply choices R (worker_init R []))
    as (w' & E & Haq & Hri & _).
  - apply inv_init.
  - unfold progress. simpl. lia.
  - exists w'. rewrite E. auto.
Qed.

(** The consumer of an inline batch gets the answer of every request, in
    the order of the requests. *)
Lemma py_collect_inline requests R wd e choices :
  denotes requests wd R ->
  conn_script e = map (served reply) choices ->
  budget_of fmt reply R < count_ready choices ->
  exists w' : worker Request Answer,
    py_collect fmt parse_fn e (query_blocks requests 0 wd).1 wd
    = (Collected (expected_of answer_of R), inline_world requests wd w')
    /\ request_iter w' = [].
Proof.
  intros Hden Hscript Hfuel.
  destruct (run_inline_served requests R wd e choices Hden Hscript Hfuel)
    as (w' & E & Haq & Hri).
  exists w'. split; [|exact Hri].
  apply py_collect_done; [reflexivity|].
  unfold run_body. simpl. rewrite E, Haq. reflexivity.
Qed.

(** Without any assumption on the transport, the consumer gets the whole
    answer or is kept waiting. *)
Lemma py_collect_inline_any requests R wd e choices :
  denotes requests wd R ->
  conn_script e = map (served reply) choices ->
  (py_collect fmt parse_fn e (query_blocks requests 0 wd).1 wd).1
  = Collected (expected_of answer_of R)
  \/ (py_collect fmt parse_fn e (query_blocks requests 0 wd).1 wd).1
     = Stuck [].
Proof.
  intros Hden Hscript.
  pose proof (py_iter_denotes requests wd R Hden) as Hit.
  unfold py_collect, gen_next, query_blocks, run_body, run_inline.
  cbn [fst snd gen_at gen_thread_count gen_requests]. simpl Z.eqb. cbv iota.
  destruct (py_iter requests wd) as [h wd1]. simpl in Hit.
  rewrite Hit, Hscript.
  destruct (worker_fn_served_any fmt parse_fn reply answer_of
              fmt_line reply_line parse_reply choices R (worker_init R [])
              (inv_init fmt reply answer_of R))
    as [(w' & E & Haq)|(w' & E)]; rewrite E.
  - left. rewrite Haq.
    destruct (expected_of answer_of R) as [|v aq]; unfold drain_step;
      [reflexivity|].
    cbv beta iota.
    rewrite gen_drain_queue with (q := aq); [reflexivity..|simpl; lia].
  - right. reflexivity.
Qed.

End InlineBatch.

(** ** The command formats *)

Lemma encode_app a b : encode (a ++ b)%string = encode a ++ encode b.
Proof.
  unfold encode, list_byte_of_string.
  induction a as [|c a IH]; simpl; [reflexivity|]. now rewrite IH.
Qed.

Lemma encode_String c s : encode (String c s) = byte_of_ascii c :: encode s.
Proof. reflexivity. Qed.

Lemma digits_line d : nl_free (encode (NilEmpty.string_of_uint d)).
Proof.
  induction d; simpl NilEmpty.string_of_uint;
    [apply nl_free_nil | rewrite encode_String; apply nl_free_cons;
                         split; [discriminate | assumption] ..].
Qed.

(** A number is printed on one line. *)
Lemma pct_d_line z : nl_free (encode (pct_d z)).
Proof.
  unfold pct_d, NilZero.string_of_int, NilZero.string_of_uint.
  destruct (Z.to_int z) as [d|d].
  - destruct d; try apply digits_line.
    apply nl_free_cons. split; [discriminate | apply nl_free_nil].
  - rewrite encode_String. apply nl_free_cons. split; [discriminate|].
    destruct d; try apply digits_line.
    apply nl_free_cons. split; [discriminate | apply nl_free_nil].
Qed.

Lemma literal_line s : bool_decide (nl_free (encode s)) = true -> nl_free (encode s).
Proof. apply bool_decide_eq_true_1. Qed.

Lemma fmt_getBlockWithData_line pos : nl_free (command fmt_getBlockWithData pos).
Proof.
  unfold command. destruct pos as [[x y] z]. unfold fmt_getBlockWithData.
  rewrite !encode_app, !nl_free_app.
  repeat split; try apply pct_d_line; apply literal_line; reflexivity.
Qed.

Lemma fmt_getHeight_line pos : nl_free (command fmt_getHeight pos).
Proof.
  unfold command. destruct pos as [x z]. unfold fmt_getHeight.
  rewrite !encode_app, !nl_free_app.
  repeat split; try apply pct_d_line; apply literal_line; reflexivity.
Qed.

(** The stub servers answer on one line, with text the parsers read. *)
Lemma stub_reply_line c : nl_free (stub_reply c).
Proof.
  unfold stub_reply. repeat case_decide; apply literal_line; reflexivity.
Qed.

Lemma stub_reply_parsed pos :
  parse_int_tuple (decode (stub_reply (command fmt_getBlockWithData pos)))
  = Some (stub_answer pos).
Proof.
  unfold stub_answer, command.
  generalize (encode (fmt_getBlockWithData pos)). intros c.
  unfold stub_reply. repeat case_decide; reflexivity.
Qed.

(** * The statements of the specification *)

(** C3. With [thread_count == 0] and a server that answers every request in
    order, whoever exhausts the generator of [query_blocks] gets the pairs
    (request, answer) in exactly the order of the request sequence, every
    request once.  The server is any [reply] function whose replies the
    parser reads, and the transport may split the traffic in any way: the
    consumer gets that list or is still waiting, and gets it once the
    transport was ready often enough to move every byte. *)
Theorem inline_batch_in_order {Request Answer : Type}
    (fmt : Request -> string) (parse_fn : string -> option Answer)
    (reply : bytes -> bytes) (answer_of : Request -> Answer)
    (requests : iterable Request) (R : list Request) (wd : world Request)
    (e : env) (choices : list choice) :
  (forall r, nl_free (command fmt r)) ->
  (forall r, nl_free (reply (command fmt r))) ->
  (forall r, parse_fn (decode (reply (command fmt r))) = Some (answer_of r)) ->
  denotes requests wd R ->
  conn_script e = map (served reply) choices ->
  let items := map (fun r => (r, answer_of r)) R in
  let got := (py_collect fmt parse_fn e (query_blocks requests 0 wd).1 wd).1 in
  (got = Collected items \/ got = Stuck [])
  /\ (budget_of fmt reply R < count_ready choices -> got = Collected items)
  /\ map fst items = R.
Proof.
  intros Hf Hr Hp Hden Hscript items got. repeat split.
  - apply (py_collect_inline_any fmt parse_fn reply answer_of Hf Hr Hp
             requests R wd e choices Hden Hscript).
  - intros Hfuel.
    destruct (py_collect_inline fmt parse_fn reply answer_of Hf Hr Hp
                requests R wd e choices Hden Hscript Hfuel) as (w' & E & _).
    subst got. now rewrite E.
  - subst items. rewrite map_map. simpl. apply map_id.
Qed.

Lemma inline_batch_in_order_witness :
  budget_of fmt_getBlockWithData stub_reply three_blocks
    < count_ready (repeat trickle 120)
  /\ (py_collect fmt_getBlockWithData parse_int_tuple
        (inline_env stub_reply (repeat trickle 120))
        (query_blocks (PySeq three_blocks) 0 fresh_world).1 fresh_world).1
     = Collected [((0, 0, 0), [1; 0]); ((1, 0, 0), [2; 0]);
                  ((2, 0, 0), [3; 0])]%Z.
Proof.
  assert (H : budget_of fmt_getBlockWithData stub_reply three_blocks
              < count_ready (repeat trickle 120)) by (vm_compute; lia).
  split; [exact H|].
  apply (inline_batch_in_order fmt_getBlockWithData parse_int_tuple
           stub_reply stub_answer (PySeq three_blocks) three_blocks
           fresh_world (inline_env stub_reply (repeat trickle 120))
           (repeat trickle 120) fmt_getBlockWithData_line
           (fun r => stub_reply_line _) stub_reply_parsed
           eq_refl eq_refl).
  exact H.
Defined.

(** C7. The worker loop returns exactly when, after drawing, no more
    requests are to be drawn and the pending queue is empty; otherwise it
    goes on to the next [select]; and against a server that answers every
    command it returns, for every finite request sequence, once the
    transport was ready often enough. *)
Theorem worker_loop_termination {Request Answer : Type}
    (fmt : Request -> string) (parse_fn : string -> option Answer)
    (reply : bytes -> bytes) (answer_of : Request -> Answer) :
  (forall r, nl_free (command fmt r)) ->
  (forall r, nl_free (reply (command fmt r))) ->
  (forall r, parse_fn (decode (reply (command fmt r))) = Some (answer_of r)) ->
  (forall script (w : worker Request Answer),
      loop_test (grab fmt w) = false ->
      worker_fn fmt parse_fn script w = Returned (grab fmt w))
  /\ (forall (w : worker Request Answer),
      loop_test (grab fmt w) = true ->
      worker_fn fmt parse_fn [] w = Blocked (grab fmt w))
  /\ (forall script (w w' : worker Request Answer),
      worker_fn fmt parse_fn script w = Returned w' ->
      more_requests w' = false /\ pending_request_queue w' = [])
  /\ (forall R choices,
      budget_of fmt reply R < count_ready choices ->
      exists w',
        worker_fn fmt parse_fn (map (served reply) choices) (worker_init R [])
        = Returned w'
        /\ request_iter w' = []
        /\ answer_queue w' = expected_of answer_of R).
Proof.
  intros Hf Hr Hp. repeat split.
  - intros script w H.
    destruct (loop_test w) eqn:T.
    + destruct script; [rewrite worker_fn_nil | rewrite worker_fn_cons];
        now rewrite T, H.
    + assert (Hg : grab fmt w = w).
      { apply grab_idle. unfold loop_test in T.
        now apply orb_false_elim in T as [? _]. }
      rewrite Hg.
      destruct script; [rewrite worker_fn_nil | rewrite worker_fn_cons];
        now rewrite T.
  - intros w H. rewrite worker_fn_nil, H.
    now rewrite (loop_test_grab fmt w H).
  - eapply worker_fn_returned; eassumption.
  - eapply worker_fn_returned; eassumption.
  - intros R choices Hfuel.
    destruct (worker_fn_served fmt parse_fn reply answer_of Hf Hr Hp
                choices R (worker_init R []))
      as (w' & E & Haq & Hri & _).
    + apply inv_init.
    + unfold progress. simpl. lia.
    + exists w'. auto.
Qed.

Lemma worker_loop_termination_witness :
  exists w',
    worker_fn fmt_getBlockWithData parse_int_tuple
      (map (served stub_reply) (repeat trickle 120))
      (worker_init three_blocks [])
    = Returned w'
    /\ request_iter w' = []
    /\ answer_queue w' = expected_of stub_answer three_blocks.
Proof.
  apply (worker_loop_termination fmt_getBlockWithData parse_int_tuple
           stub_reply stub_answer fmt_getBlockWithData_line
           (fun r => stub_reply_line _) stub_reply_parsed).
  vm_compute. lia.
Defined.

(** C5. A worker that has sent everything and waits for replies, with reads
    that deliver any cutting of the data: after every read the receive
    buffer is split at the terminators, every complete line is matched with
    the oldest pending request, and the trailing, possibly incomplete
    segment is kept as the receive buffer for the next read.  So when the
    complete lines of [receive buffer ++ data] all parse and do not
    outnumber the pending requests, the worker queues the same pairs as if
    the data had arrived whole; it returns when the last pending request is
    answered, and goes on waiting otherwise.  A reply split across two reads
    gives its single answer. *)
Theorem split_reply_reassembled {Request Answer : Type}
    (fmt : Request -> string) (parse_fn : string -> option Answer)
    (script : list reaction) (reads : list bytes)
    (w : worker Request Answer) (answers : list Answer) :
  more_requests w = false ->
  request_buffer w = [] ->
  nl_free (response_buffer w) ->
  Forall2 delivers script reads ->
  let buffer := response_buffer w ++ concat reads in
  let n := length (complete_lines buffer) in
  Forall2 (fun line a => parse_fn (decode line) = Some a)
          (complete_lines buffer) answers ->
  n <= length (pending_request_queue w) ->
  exists used unused,
    reads = used ++ unused
    /\ let w' :=
         {| request_iter := request_iter w;
            answer_queue :=
              answer_queue w
              ++ zip (take n (pending_request_queue w)) answers;
            sock_sent := sock_sent w;
            sock_rcvd := sock_rcvd w ++ concat used;
            more_requests := false;
            request_buffer := [];
            response_buffer :=
              py_last (bytes_split (response_buffer w ++ concat used));
            pending_request_queue := drop n (pending_request_queue w) |} in
       (n = length (pending_request_queue w)
        /\ worker_fn fmt parse_fn script w = Returned w')
       \/ (n < length (pending_request_queue w) /\ unused = []
           /\ worker_fn fmt parse_fn script w = Blocked w').
Proof.
  intros Hm Hb Hf D. revert w answers Hm Hb Hf.
  induction D as [|react data script reads Hd D IH];
    intros w answers Hm Hb Hf buffer n F Hn.
  - (* no read left *)
    assert (En : complete_lines buffer = []).
    { unfold buffer, complete_lines. simpl.
      rewrite app_nil_r, bytes_split_partial by assumption. reflexivity. }
    subst n. rewrite En in *. apply Forall2_nil_inv_l in F. subst answers.
    exists [], []. split; [reflexivity|].
    rewrite worker_fn_nil, grab_idle by assumption.
    simpl. rewrite drop_0, waiting_state by assumption.
    unfold loop_test. rewrite Hm. simpl.
    destruct (pending_request_queue w) as [|r pq]; simpl.
    + left. split; reflexivity.
    + right. repeat split. lia.
  - destruct (pending_request_queue w) as [|r pq] eqn:Epq.
    + (* nothing pending: the worker returns before the read *)
      assert (En : complete_lines buffer = []).
      { destruct (complete_lines buffer); [reflexivity|].
        subst n. simpl in Hn. lia. }
      subst n. rewrite En in *. apply Forall2_nil_inv_l in F. subst answers.
      exists [], (data :: reads). split; [reflexivity|].
      rewrite worker_fn_cons. unfold loop_test at 1. rewrite Hm, Epq.
      simpl. rewrite <- Epq, waiting_state by assumption.
      left. split; reflexivity.
    + (* one read, then the rest *)
      assert (Hlt : loop_test w = true).
      { unfold loop_test. rewrite Epq. apply orb_true_r. }
      rewrite <- Epq in *. clear Epq.
      destruct (Hd (sock_sent w) (sock_rcvd w)) as [Hr Hv].
      destruct (bytes_split_shape (response_buffer w ++ data))
        as (l1 & p1 & E1 & _ & _ & Hp1).
      assert (Hbuf : buffer = (response_buffer w ++ data) ++ concat reads).
      { unfold buffer. simpl. now rewrite app_assoc. }
      destruct (complete_lines_app _ (concat reads) _ _ E1) as [El _].
      rewrite <- Hbuf in El.
      subst n. rewrite El in F, Hn |- *.
      apply Forall2_app_inv_l in F as (a1 & a2 & F1 & F2 & ->).
      rewrite length_app in Hn |- *.
      pose proof (Forall2_length _ _ _ F1) as Hl1.
      set (w1 := {| request_iter := request_iter w;
                    answer_queue :=
                      answer_queue w
                      ++ zip (take (length l1) (pending_request_queue w)) a1;
                    sock_sent := sock_sent w;
                    sock_rcvd := sock_rcvd w ++ data;
                    more_requests := more_requests w;
                    request_buffer := request_buffer w;
                    response_buffer := p1;
                    pending_request_queue :=
                      drop (length l1) (pending_request_queue w) |}).
      assert (Hpass : io_and_parse parse_fn (react (sock_sent w) (sock_rcvd w)) w
                      = Running w1).
      { rewrite (io_and_parse_read parse_fn _ data) by assumption.
        apply parse_responses_running. eexists _, _. split.
        - unfold complete_lines, received. simpl.
          rewrite E1, py_init_snoc. apply match_responses_all; [exact F1|lia].
        - unfold w1, received. simpl. now rewrite E1, py_last_snoc. }
      destruct (IH w1 a2 Hm Hb Hp1 F2) as (used & unused & -> & Hres).
      { unfold w1. simpl. rewrite length_drop. lia. }
      exists (data :: used), unused. split; [reflexivity|].
      assert (Hrun : worker_fn fmt parse_fn (react :: script) w
                     = worker_fn fmt parse_fn script w1).
      { rewrite worker_fn_cons, grab_idle by assumption.
        now rewrite Hlt, Hpass. }
      rewrite Hrun. cbv zeta in Hres |- *.
      unfold w1 in Hres at 1 2 3 4 5 6 7 8 9 10. simpl in Hres.
      rewrite length_drop in Hres.
      destruct (complete_lines_app _ (concat used) _ _ E1) as [_ Elast].
      replace (response_buffer w ++ concat (data :: used))
        with ((response_buffer w ++ data) ++ concat used)
        by (simpl; now rewrite app_assoc).
      rewrite Elast.
      rewrite (zip_take_app (length l1)) by (try assumption; lia).
      rewrite <- drop_drop.
      replace (sock_rcvd w ++ concat (data :: used))
        with ((sock_rcvd w ++ data) ++ concat used)
        by (simpl; now rewrite app_assoc).
      rewrite <- app_assoc in Hres.
      destruct Hres as [[Hn2 Hret]|(Hn2 & Hu & Hblk)].
      * left. split; [lia|exact Hret].
      * right. repeat split; [lia|assumption|exact Hblk].
Qed.

(** The reply ["42\n"] to a height query, delivered as ["4"] and then
    ["2\n"]. *)
Lemma split_reply_reassembled_witness :
  worker_fn fmt_getHeight py_int reply_in_two_reads height_sent
  = Returned
      {| request_iter := []; answer_queue := [((0, 0), 42)%Z];
         sock_sent := encode "world.getHeight(0,0)" ++ [nl];
         sock_rcvd := encode "42" ++ [nl];
         more_requests := false; request_buffer := [];
         response_buffer := []; pending_request_queue := [] |}.
Proof.
  destruct (split_reply_reassembled fmt_getHeight py_int reply_in_two_reads
              [encode "4"; encode "2" ++ [nl]] height_sent [42%Z])
    as (used & unused & E & [[_ H]|[Hn _]]).
  - reflexivity.
  - reflexivity.
  - apply nl_free_nil.
  - repeat constructor.
  - repeat constructor.
  - simpl. lia.
  - rewrite H. vm_compute in H. now inversion H.
  - vm_compute in Hn. lia.
Defined.

(** C10. In the matching step, as long as the receive buffer holds no more
    complete lines than the pending queue holds requests, popping the oldest
    pending entry never fails; a complete line that meets an empty pending
    queue makes the pop raise [IndexError]. *)
Theorem pending_pop_safe {Request Answer : Type}
    (parse_fn : string -> option Answer) (w : worker Request Answer) :
  (length (complete_lines (response_buffer w))
     <= length (pending_request_queue w) ->
   forall w', parse_responses parse_fn w <> Raised IndexError w')
  /\ (pending_request_queue w = [] ->
      complete_lines (response_buffer w) <> [] ->
      exists w', parse_responses parse_fn w = Raised IndexError w').
Proof.
  unfold parse_responses, complete_lines. split.
  - intros Hlen w'.
    pose proof (match_responses_index parse_fn _ _ (answer_queue w) Hlen) as H.
    destruct (match_responses parse_fn _ _ _) as [[[ex|] pq] aq];
      simpl in H; [|discriminate].
    intros E. inversion E. congruence.
  - intros Hpq Hlines. rewrite Hpq.
    destruct (py_init (bytes_split (response_buffer w))) as [|l lines];
      [contradiction|].
    simpl. eauto.
Qed.

Lemma pending_pop_safe_witness :
  let w1 : worker Vector (list Z) :=
    {| request_iter := []; answer_queue := [];
       sock_sent := []; sock_rcvd := encode "1,0" ++ [nl];
       more_requests := false; request_buffer := [];
       response_buffer := encode "1,0" ++ [nl];
       pending_request_queue := [(0, 0, 0)%Z] |} in
  let w2 : worker Vector (list Z) :=
    {| request_iter := [(0, 0, 0)%Z]; answer_queue := [];
       sock_sent := []; sock_rcvd := encode "1,0" ++ [nl];
       more_requests := true; request_buffer := [];
       response_buffer := encode "1,0" ++ [nl];
       pending_request_queue := [] |} in
  (forall w', parse_responses parse_int_tuple w1 <> Raised IndexError w')
  /\ (exists w', parse_responses parse_int_tuple w2 = Raised IndexError w').
Proof.
  intros w1 w2. split.
  - apply (pending_pop_safe parse_int_tuple w1). simpl. lia.
  - apply (pending_pop_safe parse_int_tuple w2); [reflexivity|discriminate].
Defined.

(** C9. Calling [query_blocks] only builds the generator: the world is the
    one before the call (no traffic on the connection, no socket, no
    thread, no iterator taken from the requests), and the generator has not
    started.  The body runs when the generator is advanced for the first
    time. *)
Theorem query_blocks_is_lazy {Request Answer : Type}
    (fmt : Request -> string) (parse_fn : string -> option Answer)
    (requests : iterable Request) (thread_count : Z) (wd : world Request) :
  let g : generator Request Answer := (query_blocks requests thread_count wd).1 in
  (query_blocks (Answer := Answer) requests thread_count wd).2 = wd
  /\ gen_at g = GenCreated
  /\ gen_queue g = []
  /\ forall e, (gen_next fmt parse_fn e g wd).2
               = (run_body fmt parse_fn e g wd).2.
Proof.
  repeat split. intros e. unfold gen_next. simpl.
  destruct (run_body fmt parse_fn e _ wd) as [[aq|ex|] wd']; reflexivity.
Qed.

(** C6 (the code does not do this). A read of zero bytes is not fatal: with
    three requests pending, the peer's shutdown read any number of times
    leaves the worker in its loop, waiting for the next [select]. *)
Theorem zero_byte_read_goes_on (n : nat) :
  worker_fn fmt_getBlockWithData parse_int_tuple
    (repeat (scripted peer_closed) n) three_sent
  = Blocked three_sent.
Proof.
  induction n as [|n IH]; [reflexivity|].
  simpl repeat. rewrite worker_fn_cons.
  change (loop_test three_sent) with true.
  change (grab fmt_getBlockWithData three_sent) with three_sent.
  cbv iota.
  replace (io_and_parse parse_int_tuple
             (scripted peer_closed (sock_sent three_sent) (sock_rcvd three_sent))
             three_sent)
    with (Running three_sent) by (vm_compute; reflexivity).
  exact IH.
Qed.

(** The zero-byte write, by contrast, is fatal: the count [send] returns is
    compared with [0]. *)
Lemma zero_byte_write_is_fatal {Request Answer : Type} ev
    (w : worker Request Answer) :
  on_send ev = SendOk 0 ->
  exists w', write_once ev w = Raised RuntimeError_send0 w'.
Proof. intros E. unfold write_once. rewrite E. simpl. eauto. Qed.

(** C1 (the code does not do this). Two threads over a request sequence:
    every thread walks its own iterator over the whole sequence, and the
    consumer gets every request twice. *)
Theorem threads_repeat_requests :
  (py_collect fmt_getBlockWithData parse_int_tuple two_threads_env
     (query_blocks (PySeq three_blocks) 2 fresh_world).1 fresh_world).1
  = Collected [((0, 0, 0), [1; 0]); ((1, 0, 0), [2; 0]); ((2, 0, 0), [3; 0]);
               ((0, 0, 0), [1; 0]); ((1, 0, 0), [2; 0]);
               ((2, 0, 0), [3; 0])]%Z.
Proof. vm_compute. reflexivity. Qed.

(** C2 (the code does not do this). A transport error in a thread ends the
    thread and nothing else: the consumer gets the pairs queued so far and
    no failure.  Inline, the same error reaches the caller. *)
Theorem thread_failure_is_lost :
  (py_collect fmt_getBlockWithData parse_int_tuple failing_thread_env
     (query_blocks (PySeq three_blocks) 1 fresh_world).1 fresh_world).1
  = Collected [((0, 0, 0), [1; 0])]%Z
  /\ (py_collect fmt_getBlockWithData parse_int_tuple failing_thread_env
        (query_blocks (PySeq three_blocks) 0 fresh_world).1 fresh_world).1
     = Failed SocketError [].
Proof. split; vm_compute; reflexivity. Qed.

(** C4 (the code does not do this). When [shutdown] raises on a connected
    socket, the error is swallowed and [close] is skipped: the batch ends
    with the socket neither shut down nor closed. *)
Theorem failed_shutdown_skips_close :
  sockets (py_collect fmt_getBlockWithData parse_int_tuple failing_thread_env
             (query_blocks (PySeq three_blocks) 1 fresh_world).1
             fresh_world).2
  = [ {| sk_connected := true; sk_shutdown := false; sk_closed := false |} ].
Proof. vm_compute. reflexivity. Qed.

(** ** The adapters *)

Section AdapterProps.
Context {Block : Type}.
Variable picraft_Block : list Z -> Block.





End AdapterProps.




(** ** Where the code departs from the specification *)

(** Waiting in [select] a thread has drawn all it can: when it runs again,
    whatever the others did to the iterator, it draws nothing before the
    [select] is answered. *)
Lemma grab_settled {Request Answer : Type} (fmt : Request -> string)
    (w : worker Request Answer) it aq :
  grab fmt (with_shared it aq (grab fmt w)) = with_shared it aq (grab fmt w).
Proof.
  pose proof (grab_full fmt w) as Hfull.
  unfold grab in *.
  destruct (grab_requests fmt (request_iter w) _ _ _)
    as [[[it' more'] rb'] pq'] eqn:E.
  simpl in *. destruct more'.
  - specialize (Hfull eq_refl).
    destruct it; simpl;
      (destruct (Z.ltb_spec (Z.of_nat (length rb')) 4096); [lia|reflexivity]).
  - destruct it; reflexivity.
Qed.

(** With one iterator for both threads (a generator as [requests]) the same
    two threads deliver every request once. *)
Lemma threads_share_a_generator :
  (py_collect fmt_getBlockWithData parse_int_tuple two_threads_env
     (query_blocks (PyIterator 0) 2
        {| iterators := [three_blocks]; seq_iterations := 0;
           conn_sent := []; conn_rcvd := []; sockets := [];
           threads_started := 0 |}).1
     {| iterators := [three_blocks]; seq_iterations := 0;
        conn_sent := []; conn_rcvd := []; sockets := [];
        threads_started := 0 |}).1
  = Collected [((0, 0, 0), [1; 0]); ((1, 0, 0), [2; 0]);
               ((2, 0, 0), [3; 0])]%Z.
Proof. vm_compute. reflexivity. Qed.

(** The only failure a threaded batch raises is a failed [connect]. *)
Lemma threaded_failure_is_connect {Request Answer : Type}
    (fmt : Request -> string) (parse_fn : string -> option Answer)
    e requests thread_count (wd : world Request) ex :
  (run_threaded fmt parse_fn e requests thread_count wd).1 = BodyRaised ex ->
  ex = SocketError
  /\ (open_sockets (net_plans e) 0 (Z.to_nat thread_count) []).1 = false.
Proof.
  unfold run_threaded.
  destruct (open_sockets _ _ _ _) as [[|] socks]; simpl.
  - destruct (start_threads _ _ _ _ _ _) as [wd1 ths].
    destruct (forallb _ _); discriminate.
  - intros E. inversion E. auto.
Qed.

(** Inline, whatever the worker raises reaches the consumer, with no pair. *)
Lemma inline_failure_surfaces {Request Answer : Type}
    (fmt : Request -> string) (parse_fn : string -> option Answer)
    e requests (wd : world Request) ex (w' : worker Request Answer) :
  (run_inline fmt parse_fn e requests wd).1 = Raised ex w' ->
  (py_collect fmt parse_fn e (query_blocks requests 0 wd).1 wd).1
  = Failed ex [].
Proof.
  intros E.
  destruct (run_inline fmt parse_fn e requests wd) as [o wd'] eqn:Er.
  simpl in E. subst o.
  rewrite (py_collect_raised fmt parse_fn e _ wd ex wd'); [reflexivity..|].
  unfold run_body. simpl. now rewrite Er.
Qed.

(** The cleanup of one socket closes it exactly when [shutdown] went
    through. *)
Lemma cleanup_socket_closed plan s :
  sk_closed s = false ->
  sk_closed (cleanup_socket plan s) = sk_connected s && shutdown_ok plan.
Proof.
  intros H. unfold cleanup_socket.
  destruct (sk_connected s && shutdown_ok plan); [reflexivity|exact H].
Qed.

(** A reply too many: the fourth line finds the pending queue empty. *)
Lemma reply_too_many_raises :
  exists w',
    worker_fn fmt_getBlockWithData parse_int_tuple [scripted one_too_many]
              three_sent
    = Raised IndexError w'
    /\ answer_queue w'
       = [((0, 0, 0), [1; 0]); ((1, 0, 0), [2; 0]); ((2, 0, 0), [3; 0])]%Z.
Proof. eexists. vm_compute. split; reflexivity. Qed.

(** * Further properties of the code *)

(** ** The worker with any peer *)

Section AnyPeerProps.
Context {Request Answer : Type}.
Variable fmt : Request -> string.
Variable parse_fn : string -> option Answer.

(** A property [P] kept by drawing and by every pass that ends at the loop
    test holds when the worker stops; when a pass raises, what it leaves
    satisfies [Q]. *)
Lemma worker_fn_invariant (P Q : worker Request Answer -> Prop) :
  (forall w, P w -> P (grab fmt w)) ->
  (forall ev w, P w ->
     match io_and_parse parse_fn ev w with
     | Raised _ w' => Q w'
     | o => P (state_of o)
     end) ->
  forall script w, P w ->
    match worker_fn fmt parse_fn script w with
    | Raised _ w' => Q w'
    | o => P (state_of o)
    end.
Proof.
  intros Hgrab Hpass.
  induction script as [|react script IH]; intros w Hw.
  - rewrite worker_fn_nil.
    destruct (loop_test w); [|exact Hw].
    destruct (loop_test (grab fmt w)); simpl; auto.
  - rewrite worker_fn_cons.
    destruct (loop_test w); [|exact Hw].
    destruct (loop_test (grab fmt w)); [|simpl; auto].
    specialize (Hpass (react (sock_sent (grab fmt w)) (sock_rcvd (grab fmt w)))
                      (grab fmt w) (Hgrab w Hw)).
    destruct (io_and_parse_shape parse_fn
                (react (sock_sent (grab fmt w)) (sock_rcvd (grab fmt w)))
                (grab fmt w)) as [[w2 E]|(ex & w2 & E)]; rewrite E in Hpass |- *.
    + apply IH. exact Hpass.
    + exact Hpass.
Qed.

(** The same, cut along the three steps of a pass. *)
Lemma io_and_parse_invariant (P Q : worker Request Answer -> Prop) ev w :
  (forall w0, P w0 ->
     match write_once ev w0 with
     | Raised _ w' => Q w' | o => P (state_of o) end) ->
  (forall w0, P w0 ->
     match read_once ev w0 with
     | Raised _ w' => Q w' | o => P (state_of o) end) ->
  (forall w0, P w0 ->
     match parse_responses parse_fn w0 with
     | Raised _ w' => Q w' | o => P (state_of o) end) ->
  P w ->
  match io_and_parse parse_fn ev w with
  | Raised _ w' => Q w'
  | o => P (state_of o)
  end.
Proof.
  intros Hw Hr Hp HP. unfold io_and_parse.
  assert (H1 : match (if (0 <? Z.of_nat (length (request_buffer w)))%Z
                         && sel_write ev
                      then write_once ev w else Running w) with
               | Raised _ w' => Q w' | o => P (state_of o) end).
  { destruct (_ && _); [apply Hw; exact HP | exact HP]. }
  destruct (if (_ && sel_write ev) then _ else _) as [w1|w1|w1|ex w1];
    simpl in H1; try exact H1.
  assert (H2 : match (if sel_read ev then read_once ev w1 else Running w1) with
               | Raised _ w' => Q w' | o => P (state_of o) end).
  { destruct (sel_read ev); [apply Hr; exact H1 | exact H1]. }
  destruct (if sel_read ev then _ else _) as [w2|w2|w2|ex w2];
    simpl in H2; try exact H2.
  apply Hp. exact H2.
Qed.

Lemma match_responses_keys lines : forall pq aq pq' (aq' : list (Request * Answer)),
  match_responses parse_fn lines pq aq = (None, pq', aq') ->
  map fst aq' ++ pq' = map fst aq ++ pq.
Proof.
  induction lines as [|l lines IH]; intros pq aq pq' aq' E; simpl in E.
  - now inversion E.
  - destruct pq as [|r pq]; [discriminate|].
    destruct (parse_fn (decode l)) as [a|]; [|discriminate].
    apply IH in E. rewrite E, map_app, <- app_assoc. reflexivity.
Qed.

Lemma order_sent R (w : worker Request Answer) :
  order_inv fmt R w -> sent_inv fmt R w.
Proof. intros [drawn H1 H2 _ _]. now apply (mk_sent fmt R w drawn). Qed.

Lemma order_init R :
  order_inv fmt R (worker_init (Answer := Answer) R []).
Proof.
  apply (mk_order fmt _ _ []); simpl; try reflexivity. discriminate.
Qed.

Lemma grab_order R (w : worker Request Answer) :
  order_inv fmt R w -> order_inv fmt R (grab fmt w).
Proof.
  intros [drawn H1 H2 H3 H4]. unfold grab.
  destruct (grab_requests fmt _ _ _ _) as [[[it' more'] rb'] pq'] eqn:E.
  apply grab_requests_spec in E as (new & E1 & E2 & E3 & E4 & E5).
  apply (mk_order fmt _ _ (drawn ++ new)); simpl.
  - rewrite H1, E1, <- app_assoc. reflexivity.
  - rewrite E2, app_assoc, H2. unfold wire_of. now rewrite map_app, stream_app.
  - rewrite E3, H3, <- app_assoc. reflexivity.
  - intros Hm. destruct (E4 Hm) as [Hm'|?]; [|assumption].
    specialize (H4 Hm'). rewrite H4 in E1.
    symmetry in E1. apply app_eq_nil in E1 as [_ ?]. assumption.
Qed.

Lemma pass_order R ev w :
  order_inv fmt R w ->
  match io_and_parse parse_fn ev w with
  | Raised _ w' => sent_inv fmt R w'
  | o => order_inv fmt R (state_of o)
  end.
Proof.
  apply io_and_parse_invariant; clear w.
  - intros w [drawn H1 H2 H3 H4]. unfold write_once.
    destruct (on_send ev) as [n|].
    + assert (Hs : (sock_sent w ++ take n (request_buffer w))
                   ++ drop n (request_buffer w) = wire_of fmt drawn).
      { now rewrite <- app_assoc, take_drop. }
      destruct (py_eq _ _); simpl.
      * now apply (mk_sent fmt _ _ drawn).
      * now apply (mk_order fmt _ _ drawn).
    + now apply (mk_sent fmt _ _ drawn).
  - intros w [drawn H1 H2 H3 H4]. unfold read_once.
    destruct (on_recv ev) as [data|]; simpl.
    + now apply (mk_order fmt _ _ drawn).
    + now apply (mk_sent fmt _ _ drawn).
  - intros w [drawn H1 H2 H3 H4]. unfold parse_responses.
    destruct (match_responses parse_fn _ _ _) as [[[ex|] pq] aq] eqn:M; simpl.
    + now apply (mk_sent fmt _ _ drawn).
    + apply match_responses_keys in M.
      apply (mk_order fmt _ _ drawn); simpl; try assumption.
      now rewrite M.
Qed.

Lemma worker_fn_order script R :
  match worker_fn fmt parse_fn script (worker_init R []) with
  | Raised _ w' => sent_inv fmt R w'
  | o => order_inv fmt R (state_of o)
  end.
Proof.
  apply (worker_fn_invariant (order_inv fmt R) (sent_inv fmt R)).
  - apply grab_order.
  - intros ev w. apply pass_order.
  - apply order_init.
Qed.

Lemma worker_fn_returned_keys script R (w' : worker Request Answer) :
  worker_fn fmt parse_fn script (worker_init R []) = Returned w' ->
  map fst (answer_queue w') = R /\ request_iter w' = [].
Proof.
  intros E.
  pose proof (worker_fn_order script R) as H. rewrite E in H.
  simpl in H. destruct H as [drawn H1 H2 H3 H4].
  apply worker_fn_returned in E as [Hm Hp].
  specialize (H4 Hm). rewrite H4, app_nil_r in H1.
  rewrite Hp, app_nil_r in H3. split; congruence.
Qed.

End AnyPeerProps.

(** X1. Whoever the peer is and however the run ends, the bytes sent
    followed by the send buffer are the command lines of the requests drawn
    so far, in the order of the request sequence: no command is left out,
    repeated or cut. *)
Theorem commands_leave_in_order {Request Answer : Type}
    (fmt : Request -> string) (parse_fn : string -> option Answer)
    (script : list reaction) (R : list Request) :
  let w' := state_of (worker_fn fmt parse_fn script (worker_init R [])) in
  exists drawn,
    R = drawn ++ request_iter w'
    /\ sock_sent w' ++ request_buffer w' = wire_of fmt drawn.
Proof.
  intros w'. subst w'.
  pose proof (worker_fn_order fmt parse_fn script R) as H.
  destruct (worker_fn fmt parse_fn script (worker_init R [])) as [w|w|w|ex w];
    simpl in *; try apply order_sent in H; destruct H as [drawn H1 H2]; eauto.
Qed.

(** X2. Whoever the peer is, a worker that returns has queued one pair for
    every request of the sequence, in the order of the sequence, and has
    exhausted the iterator; the answers are whatever the peer's lines
    parsed to. *)
Theorem returned_queue_keys {Request Answer : Type}
    (fmt : Request -> string) (parse_fn : string -> option Answer)
    (script : list reaction) (R : list Request) (w' : worker Request Answer) :
  worker_fn fmt parse_fn script (worker_init R []) = Returned w' ->
  map fst (answer_queue w') = R /\ request_iter w' = [].
Proof. apply worker_fn_returned_keys. Qed.

(** A peer that answers before it is asked, and always the same: the worker
    returns with the three positions as keys, in order. *)
Lemma returned_queue_keys_witness :
  exists w',
    worker_fn fmt_getBlockWithData parse_int_tuple (repeat babbler 3)
              (worker_init three_blocks [])
    = Returned w'
    /\ map fst (answer_queue w') = three_blocks
    /\ request_iter w' = [].
Proof.
  eexists. split; [vm_compute; reflexivity|].
  eapply (returned_queue_keys fmt_getBlockWithData parse_int_tuple
            (repeat babbler 3) three_blocks).
  vm_compute. reflexivity.
Defined.

Section BufferProps.
Context {Request Answer : Type}.
Variable fmt : Request -> string.
Variable parse_fn : string -> option Answer.

Lemma grab_requests_bound (L : nat) it : forall more rb pq,
  Forall (fun r => length (command fmt r) < L) it ->
  let '(it', _, rb', _) := grab_requests fmt it more rb pq in
  (Z.of_nat (length rb') <= Z.max (Z.of_nat (length rb)) (4095 + Z.of_nat L))%Z
  /\ Forall (fun r => length (command fmt r) < L) it'.
Proof.
  induction it as [|pos it IH]; intros more rb pq Hit; simpl.
  - destruct (more && _); split; try lia; constructor.
  - destruct more; simpl; [|split; [lia|assumption]].
    destruct (Z.ltb_spec (Z.of_nat (length rb)) 4096); [|split; [lia|assumption]].
    inversion Hit as [|? ? Hpos Hit']; subst.
    specialize (IH true (rb ++ encode (fmt pos) ++ [nl]) (pq ++ [pos]) Hit').
    destruct (grab_requests fmt it true _ _) as [[[it' more'] rb'] pq'].
    destruct IH as [IH1 IH2]. split; [|assumption].
    rewrite !length_app in IH1. simpl in IH1.
    unfold command in Hpos. lia.
Qed.

(** What the parsing step does to the pending queue and the answer queue
    when a line does not parse. *)
Lemma match_responses_rejected lines :
  forall pq aq pq' (aq' : list (Request * Answer)),
  match_responses parse_fn lines pq aq = (Some ParseError, pq', aq') ->
  exists k line r,
    lines !! k = Some line /\ parse_fn (decode line) = None
    /\ pq !! k = Some r
    /\ pq' = drop (S k) pq
    /\ map fst aq' = map fst aq ++ take k pq.
Proof.
  induction lines as [|l lines IH]; intros pq aq pq' aq' E; simpl in E.
  - discriminate.
  - destruct pq as [|r pq]; [discriminate|].
    destruct (parse_fn (decode l)) as [a|] eqn:P.
    + apply IH in E as (k & line & r' & H1 & H2 & H3 & H4 & H5).
      exists (S k), line, r'. simpl. repeat split; try assumption.
      rewrite H5, map_app, <- app_assoc. reflexivity.
    + inversion E; subst. exists 0, l, r. simpl.
      rewrite app_nil_r. repeat split; assumption.
Qed.

Lemma write_once_raises ev (w w' : worker Request Answer) ex :
  write_once ev w = Raised ex w' ->
  ex = SocketError \/ ex = RuntimeError_send0.
Proof.
  unfold write_once. destruct (on_send ev); [destruct (py_eq _ _)|];
    intros E; inversion E; auto.
Qed.

Lemma parse_responses_raises (w w' : worker Request Answer) ex :
  parse_responses parse_fn w = Raised ex w' ->
  ex = IndexError \/ ex = ParseError.
Proof.
  unfold parse_responses, complete_lines.
  generalize (py_init (bytes_split (response_buffer w))) as lines.
  generalize (pending_request_queue w) as pq.
  generalize (answer_queue w) as aq.
  intros aq pq lines. revert pq aq.
  induction lines as [|l lines IH]; intros pq aq; simpl.
  - discriminate.
  - destruct pq as [|r pq]; [intros E; inversion E; auto|].
    destruct (parse_fn (decode l)); [apply IH|intros E; inversion E; auto].
Qed.

Lemma io_and_parse_raises ev (w w' : worker Request Answer) ex :
  io_and_parse parse_fn ev w = Raised ex w' ->
  ex = SocketError \/ ex = RuntimeError_send0
  \/ ex = IndexError \/ ex = ParseError.
Proof.
  unfold io_and_parse.
  destruct (_ && sel_write ev).
  - destruct (write_once ev w) as [w1|w1|w1|ex1 w1] eqn:Ew; try discriminate.
    + destruct (sel_read ev).
      * destruct (read_once ev w1) as [w2|w2|w2|ex2 w2] eqn:Er;
          try discriminate.
        -- intros E. apply parse_responses_raises in E. tauto.
        -- intros E. inversion E; subst. apply read_once_raises in Er. auto.
      * intros E. apply parse_responses_raises in E. tauto.
    + intros E. inversion E; subst. apply write_once_raises in Ew. tauto.
  - destruct (sel_read ev).
    + destruct (read_once ev w) as [w2|w2|w2|ex2 w2] eqn:Er; try discriminate.
      * intros E. apply parse_responses_raises in E. tauto.
      * intros E. inversion E; subst. apply read_once_raises in Er. auto.
    + intros E. apply parse_responses_raises in E. tauto.
Qed.

Lemma worker_fn_raises script : forall (w w' : worker Request Answer) ex,
  worker_fn fmt parse_fn script w = Raised ex w' ->
  ex = SocketError \/ ex = RuntimeError_send0
  \/ ex = IndexError \/ ex = ParseError.
Proof.
  induction script as [|react script IH]; intros w w' ex.
  - rewrite worker_fn_nil.
    destruct (loop_test w); [destruct (loop_test (grab fmt w))|]; discriminate.
  - rewrite worker_fn_cons.
    destruct (loop_test w); [|discriminate].
    destruct (loop_test (grab fmt w)); [|discriminate].
    destruct (io_and_parse parse_fn _ (grab fmt w)) as [w2|w2|w2|ex2 w2] eqn:E;
      try discriminate.
    + apply IH.
    + intros E'. inversion E'; subst. eapply io_and_parse_raises, E.
Qed.

End BufferProps.

(** X3. The send buffer stays bounded: when every command of the sequence
    is shorter than [L] bytes, the buffer never holds more than [4095 + L]
    bytes, whoever the peer is and however the run ends. *)
Theorem send_buffer_bounded {Request Answer : Type}
    (fmt : Request -> string) (parse_fn : string -> option Answer)
    (L : nat) (script : list reaction) (R : list Request) :
  Forall (fun r => length (command fmt r) < L) R ->
  let w' := state_of (worker_fn fmt parse_fn script (worker_init R [])) in
  (Z.of_nat (length (request_buffer w')) <= 4095 + Z.of_nat L)%Z.
Proof.
  intros HR w'. subst w'.
  set (P := fun w : worker Request Answer =>
              (Z.of_nat (length (request_buffer w)) <= 4095 + Z.of_nat L)%Z
              /\ Forall (fun r => length (command fmt r) < L) (request_iter w)).
  assert (H : match worker_fn fmt parse_fn script (worker_init R []) with
              | Raised _ w' => P w'
              | o => P (state_of o)
              end).
  { apply (worker_fn_invariant fmt parse_fn P P).
    - intros w [H1 H2]. unfold P, grab.
      pose proof (grab_requests_bound fmt L (request_iter w) (more_requests w)
                    (request_buffer w) (pending_request_queue w) H2) as G.
      destruct (grab_requests fmt _ _ _ _) as [[[it' more'] rb'] pq'].
      simpl. destruct G as [G1 G2]. split; [lia|assumption].
    - intros ev w. apply io_and_parse_invariant.
      + intros w0 [H1 H2]. unfold write_once.
        destruct (on_send ev) as [n|]; [|split; assumption].
        assert (length (drop n (request_buffer w0))
                <= length (request_buffer w0)) by (rewrite length_drop; lia).
        destruct (py_eq _ _); unfold P; simpl; (split; [lia|assumption]).
      + intros w0 [H1 H2]. unfold read_once.
        destruct (on_recv ev); unfold P; simpl; split; assumption.
      + intros w0 [H1 H2]. unfold parse_responses.
        destruct (match_responses parse_fn _ _ _) as [[[ex|] pq] aq];
          unfold P; simpl; split; assumption.
    - split; [simpl; lia | exact HR]. }
  destruct (worker_fn fmt parse_fn script (worker_init R []));
    simpl in *; apply H.
Qed.

Lemma send_buffer_bounded_witness :
  (Z.of_nat (length (request_buffer
     (state_of (worker_fn fmt_getBlockWithData parse_int_tuple
                  (repeat (scripted stalled_write) 2)
                  (worker_init three_blocks [])))))
   <= 4095 + 30)%Z.
Proof.
  apply (send_buffer_bounded fmt_getBlockWithData parse_int_tuple 30
           (repeat (scripted stalled_write) 2) three_blocks).
  repeat constructor.
Defined.

(** X4. The parsing step loses no byte: the complete lines it takes, each
    with its terminator, followed by the new receive buffer are the old
    receive buffer; neither a line nor the new buffer holds a terminator.
    This holds whether or not a line makes the step raise. *)
Theorem parsing_keeps_every_byte {Request Answer : Type}
    (parse_fn : string -> option Answer) (w : worker Request Answer) :
  let w' := state_of (parse_responses parse_fn w) in
  response_buffer w
  = stream (complete_lines (response_buffer w)) ++ response_buffer w'
  /\ Forall nl_free (complete_lines (response_buffer w))
  /\ nl_free (response_buffer w').
Proof.
  intros w'. subst w'. unfold parse_responses, complete_lines.
  destruct (bytes_split_shape (response_buffer w)) as (ls & p & E & Hb & Hls & Hp).
  rewrite E, py_init_snoc, py_last_snoc.
  destruct (match_responses parse_fn ls _ _) as [[[ex|] pq] aq]; simpl; auto.
Qed.

(** X5. [RuntimeError("unexpected socket.send()=0")] is raised in a pass
    exactly when the send buffer is not empty, [select] reports the socket
    writable and [send] accepts no byte; the pass then ends before anything
    is read or parsed. *)
Theorem send_zero_raised_exactly {Request Answer : Type}
    (parse_fn : string -> option Answer) (ev : io_event)
    (w : worker Request Answer) :
  ((exists w', io_and_parse parse_fn ev w = Raised RuntimeError_send0 w')
   <-> request_buffer w <> [] /\ sel_write ev = true
       /\ on_send ev = SendOk 0)
  /\ (request_buffer w <> [] -> sel_write ev = true ->
      on_send ev = SendOk 0 ->
      io_and_parse parse_fn ev w = Raised RuntimeError_send0 w).
Proof.
  assert (Hin : request_buffer w <> [] -> sel_write ev = true ->
                on_send ev = SendOk 0 ->
                io_and_parse parse_fn ev w = Raised RuntimeError_send0 w).
  { intros Hrb Hsel Hsend. unfold io_and_parse, write_once.
    rewrite Hsel, Hsend.
    destruct (request_buffer w) as [|b rb] eqn:Erb; [contradiction|].
    replace (0 <? Z.of_nat (length (b :: rb)))%Z with true
      by (symmetry; apply Z.ltb_lt; simpl length; lia).
    simpl. rewrite app_nil_r. destruct w; simpl in *. now rewrite Erb. }
  split; [|exact Hin]. split.
  - intros [w' E]. unfold io_and_parse in E.
    destruct (Z.ltb_spec 0 (Z.of_nat (length (request_buffer w)))) as [Hl|Hl];
      simpl in E.
    + destruct (sel_write ev) eqn:Hsel.
      * destruct (write_once ev w) as [w1|w1|w1|ex1 w1] eqn:Ew;
          try discriminate.
        -- exfalso. destruct (sel_read ev).
           ++ destruct (read_once ev w1) as [w2|w2|w2|ex2 w2] eqn:Er;
                try discriminate.
              ** apply parse_responses_raises in E as [?|?]; discriminate.
              ** inversion E; subst. apply read_once_raises in Er.
                 discriminate.
           ++ apply parse_responses_raises in E as [?|?]; discriminate.
        -- inversion E; subst. unfold write_once in Ew.
           destruct (on_send ev) as [n|]; [|inversion Ew].
           destruct n as [|n]; [|simpl in Ew;
             destruct (Z.of_nat (S n)) eqn:Z; simpl in Ew; try discriminate; lia].
           repeat split. intros Hrb. rewrite Hrb in Hl. simpl in Hl. lia.
      * exfalso. destruct (sel_read ev).
        -- destruct (read_once ev w) as [w2|w2|w2|ex2 w2] eqn:Er;
             try discriminate.
           ++ apply parse_responses_raises in E as [?|?]; discriminate.
           ++ inversion E; subst. apply read_once_raises in Er. discriminate.
        -- apply parse_responses_raises in E as [?|?]; discriminate.
    + exfalso. destruct (sel_read ev).
      * destruct (read_once ev w) as [w2|w2|w2|ex2 w2] eqn:Er;
          try discriminate.
        -- apply parse_responses_raises in E as [?|?]; discriminate.
        -- inversion E; subst. apply read_once_raises in Er. discriminate.
      * apply parse_responses_raises in E as [?|?]; discriminate.
  - intros (Hrb & Hsel & Hsend). exists w. now apply Hin.
Qed.

Lemma send_zero_raised_exactly_witness :
  io_and_parse parse_int_tuple stalled_write
    (grab fmt_getBlockWithData (worker_init three_blocks []))
  = Raised RuntimeError_send0
      (grab fmt_getBlockWithData (worker_init three_blocks [])).
Proof.
  apply (send_zero_raised_exactly parse_int_tuple stalled_write
           (grab fmt_getBlockWithData (worker_init three_blocks []))).
  - discriminate.
  - reflexivity.
  - reflexivity.
Defined.

(** An empty read into a receive buffer without a complete line changes
    nothing in the parsing step. *)
Lemma parse_responses_nothing {Request Answer : Type}
    (parse_fn : string -> option Answer) (w : worker Request Answer) :
  nl_free (response_buffer w) ->
  parse_responses parse_fn (received [] w) = Running w.
Proof.
  intros H. unfold parse_responses, received.
  simpl. rewrite !app_nil_r, bytes_split_partial by assumption.
  simpl. destruct w; reflexivity.
Qed.

(** X6. [RuntimeError("unexpected socket.recv()=0")] is never raised,
    whoever the peer is and from any state: the test compares the bytes
    read with an integer.  So a worker that waits for replies on a
    connection the peer has shut down stays in its loop, unchanged, through
    any number of empty reads. *)
Theorem recv_zero_never_raised {Request Answer : Type}
    (fmt : Request -> string) (parse_fn : string -> option Answer) :
  (forall script (w w' : worker Request Answer),
      worker_fn fmt parse_fn script w <> Raised RuntimeError_recv0 w')
  /\ (forall n (w : worker Request Answer),
        more_requests w = false ->
        request_buffer w = [] ->
        nl_free (response_buffer w) ->
        pending_request_queue w <> [] ->
        worker_fn fmt parse_fn (repeat (scripted peer_closed) n) w
        = Blocked w).
Proof.
  split.
  - intros script w w' E. apply worker_fn_raises in E.
    destruct E as [E|[E|[E|E]]]; discriminate.
  - intros n w Hm Hb Hf Hpq.
    assert (Hlt : loop_test w = true).
    { unfold loop_test. destruct (pending_request_queue w);
        [contradiction|apply orb_true_r]. }
    induction n as [|n IH].
    + simpl repeat. rewrite worker_fn_nil, grab_idle by assumption.
      now rewrite Hlt.
    + simpl repeat. rewrite worker_fn_cons, grab_idle by assumption.
      rewrite Hlt.
      rewrite (io_and_parse_read parse_fn _ [])
        by (try assumption; reflexivity).
      rewrite parse_responses_nothing by assumption. exact IH.
Qed.

Lemma recv_zero_never_raised_witness :
  worker_fn fmt_getHeight py_int (repeat (scripted peer_closed) 5) height_sent
  = Blocked height_sent.
Proof.
  apply (recv_zero_never_raised fmt_getHeight py_int).
  - reflexivity.
  - reflexivity.
  - apply nl_free_nil.
  - discriminate.
Defined.

(** X7. When a reply line does not parse, the parsing step raises with the
    pairs of the lines before it queued, and the request of the rejected
    line is taken off the pending queue without a pair: it is neither
    pending nor answered. *)
Theorem rejected_reply_drops_request {Request Answer : Type}
    (parse_fn : string -> option Answer) (w w' : worker Request Answer) :
  parse_responses parse_fn w = Raised ParseError w' ->
  exists k line r,
    complete_lines (response_buffer w) !! k = Some line
    /\ parse_fn (decode line) = None
    /\ pending_request_queue w !! k = Some r
    /\ pending_request_queue w' = drop (S k) (pending_request_queue w)
    /\ map fst (answer_queue w')
       = map fst (answer_queue w) ++ take k (pending_request_queue w).
Proof.
  unfold parse_responses, complete_lines.
  destruct (match_responses parse_fn _ _ _) as [[[ex|] pq] aq] eqn:M;
    [|discriminate].
  intros E. inversion E; subst. simpl.
  apply match_responses_rejected in M. exact M.
Qed.

(** The second of three replies is not a tuple of integers. *)
Lemma rejected_reply_drops_request_witness :
  let w0 : worker Vector (list Z) :=
    {| request_iter := []; answer_queue := [];
       sock_sent := []; sock_rcvd := [];
       more_requests := false; request_buffer := [];
       response_buffer := stream [encode "1,0"; encode "stone"; encode "3,0"];
       pending_request_queue := three_blocks |} in
  exists w',
    parse_responses parse_int_tuple w0 = Raised ParseError w'
    /\ pending_request_queue w' = [(2, 0, 0)%Z]
    /\ map fst (answer_queue w') = [(0, 0, 0)%Z].
Proof.
  intros w0.
  destruct (parse_responses parse_int_tuple w0) as [w'|w'|w'|ex w'] eqn:E;
    try (vm_compute in E; discriminate).
  assert (ex = ParseError) as -> by (vm_compute in E; congruence).
  exists w'. split; [reflexivity|].
  destruct (rejected_reply_drops_request parse_int_tuple w0 w' E)
    as (k & line & r & H1 & H2 & H3 & H4 & H5).
  assert (k = 1) as ->.
  { destruct k as [|[|[|k]]]; try reflexivity;
      vm_compute in H1; inversion H1; subst; vm_compute in H2; discriminate. }
  split; [exact H4 | exact H5].
Defined.

(** ** The batch *)

Section BatchProps.
Context {Request Answer : Type}.
Variable fmt : Request -> string.
Variable parse_fn : string -> option Answer.

(** Exhausting a fresh generator: what the body leaves decides. *)
Lemma py_collect_cases e (g : generator Request Answer) wd :
  gen_at g = GenCreated ->
  py_collect fmt parse_fn e g wd
  = match run_body fmt parse_fn e g wd with
    | (BodyDone aq, wd') => (Collected aq, wd')
    | (BodyRaised ex, wd') => (Failed ex [], wd')
    | (BodyHangs, wd') => (Stuck [], wd')
    end.
Proof.
  intros Hat.
  destruct (run_body fmt parse_fn e g wd) as [[aq|ex|] wd'] eqn:E.
  - now apply py_collect_done.
  - now apply py_collect_raised.
  - unfold py_collect, gen_next. now rewrite Hat, E.
Qed.

(** With no request the worker returns at once, whatever the script. *)
Lemma worker_fn_no_request script aq :
  worker_fn fmt parse_fn script (worker_init (Request := Request) [] aq)
  = Returned {| request_iter := []; answer_queue := aq;
                sock_sent := []; sock_rcvd := [];
                more_requests := false; request_buffer := [];
                response_buffer := []; pending_request_queue := [] |}.
Proof. destruct script; reflexivity. Qed.

Lemma thread_turns_no_thread sch its (q : list (Request * Answer)) :
  fold_left (thread_turn fmt parse_fn) sch
    {| pl_iterators := its; pl_queue := q; pl_threads := [] |}
  = {| pl_iterators := its; pl_queue := q; pl_threads := [] |}.
Proof. induction sch as [|i sch IH]; [reflexivity | exact IH]. Qed.

Lemma open_sockets_fails plans k : forall n i socks,
  i <= k < i + n -> connect_ok (plan_of plans k) = false ->
  (open_sockets plans i n socks).1 = false.
Proof.
  induction n as [|n IH]; intros i socks Hk Hf; [lia|].
  simpl. destruct (connect_ok (plan_of plans i)) eqn:Hi; [|reflexivity].
  apply IH; [|exact Hf].
  destruct (decide (k = i)) as [->|]; [congruence | lia].
Qed.

Lemma open_sockets_ok plans : forall n i socks,
  (forall j, i <= j < i + n -> connect_ok (plan_of plans j) = true) ->
  open_sockets plans i n socks = (true, socks ++ repeat connected_socket n).
Proof.
  induction n as [|n IH]; intros i socks H; simpl.
  - now rewrite app_nil_r.
  - rewrite H by lia. rewrite IH by (intros j Hj; apply H; lia).
    now rewrite <- app_assoc.
Qed.

(** Starting threads touches the iterators and the thread count only. *)
Lemma start_threads_world plans requests : forall n i (wd : world Request)
    (ths : list (thread Request Answer)),
  let r := start_threads plans requests i n wd ths in
  threads_started r.1 = threads_started wd + n
  /\ sockets r.1 = sockets wd
  /\ conn_sent r.1 = conn_sent wd /\ conn_rcvd r.1 = conn_rcvd wd
  /\ length r.2 = length ths + n.
Proof.
  induction n as [|n IH]; intros i wd ths; simpl.
  - repeat split; lia.
  - destruct (py_iter requests wd) as [h wd1] eqn:E.
    assert (Hw : threads_started wd1 = threads_started wd
                 /\ sockets wd1 = sockets wd
                 /\ conn_sent wd1 = conn_sent wd
                 /\ conn_rcvd wd1 = conn_rcvd wd).
    { unfold py_iter in E. destruct requests; inversion E; subst; simpl; auto. }
    destruct Hw as (W1 & W2 & W3 & W4).
    match goal with |- context [start_threads _ _ _ _ ?w ?t] =>
      specialize (IH (S i) w t) end.
    simpl in IH. destruct IH as (I1 & I2 & I3 & I4 & I5).
    rewrite I1, I2, I3, I4, I5, length_app. simpl. repeat split; try lia;
      congruence.
Qed.

Lemma cleanup_connected plans : forall n (f : nat -> nat),
  (forall j, j < n -> shutdown_ok (plan_of plans (f j)) = true) ->
  imap (fun i s => cleanup_socket (plan_of plans (f i)) s)
       (repeat connected_socket n)
  = repeat closed_socket n.
Proof.
  induction n as [|n IH]; intros f H; [reflexivity|].
  simpl. unfold cleanup_socket at 1. simpl. rewrite (H 0) by lia.
  f_equal. apply (IH (fun j => f (S j))). intros j Hj. apply H. lia.
Qed.

End BatchProps.

Lemma py_collect_no_request {Request Answer : Type}
    (fmt : Request -> string) (parse_fn : string -> option Answer)
    (e : env) (requests : iterable Request) (wd : world Request) :
  denotes requests wd [] ->
  exists wd',
    py_collect fmt parse_fn e (query_blocks requests 0 wd).1 wd
    = (Collected [], wd')
    /\ conn_sent wd' = conn_sent wd /\ conn_rcvd wd' = conn_rcvd wd
    /\ sockets wd' = sockets wd
    /\ threads_started wd' = threads_started wd.
Proof.
  intros Hden.
  pose proof (py_iter_denotes requests wd [] Hden) as Hit.
  rewrite py_collect_cases by reflexivity.
  unfold run_body, query_blocks, run_inline. simpl.
  destruct (py_iter requests wd) as [h wd1] eqn:E. simpl in Hit.
  rewrite Hit, worker_fn_no_request. simpl.
  eexists. split; [reflexivity|]. simpl. rewrite !app_nil_r.
  unfold py_iter in E. destruct requests; inversion E; subst; simpl; auto.
Qed.

(** X8. An inline batch over an empty request sequence ends without a pair
    and without touching the connection: nothing is sent, nothing is read,
    [select] is not even called, whoever the peer is. *)
Theorem empty_batch_no_io {Request Answer : Type}
    (fmt : Request -> string) (parse_fn : string -> option Answer)
    (e : env) (requests : iterable Request) (wd : world Request) :
  denotes requests wd [] ->
  exists wd',
    py_collect fmt parse_fn e (query_blocks requests 0 wd).1 wd
    = (Collected [], wd')
    /\ conn_sent wd' = conn_sent wd /\ conn_rcvd wd' = conn_rcvd wd
    /\ sockets wd' = sockets wd
    /\ threads_started wd' = threads_started wd.
Proof. apply py_collect_no_request. Qed.

Lemma empty_batch_no_io_witness :
  (py_collect fmt_getBlockWithData parse_int_tuple failing_thread_env
     (query_blocks (PySeq []) 0 fresh_world).1 fresh_world).1
  = Collected []
  /\ conn_sent (py_collect fmt_getBlockWithData parse_int_tuple
                  failing_thread_env
                  (query_blocks (PySeq []) 0 fresh_world).1 fresh_world).2
     = [].
Proof.
  destruct (empty_batch_no_io fmt_getBlockWithData parse_int_tuple
              failing_thread_env (PySeq []) fresh_world eq_refl)
    as (wd' & E & H1 & _).
  rewrite E. split; [reflexivity | exact H1].
Defined.

(** X9. With a negative [thread_count] the generator ends at once without a
    pair and without an error, and nothing has happened: no socket, no
    thread, no iterator taken from the requests; the requests are silently
    left unanswered. *)
Theorem negative_thread_count_does_nothing {Request Answer : Type}
    (fmt : Request -> string) (parse_fn : string -> option Answer)
    (e : env) (requests : iterable Request) (thread_count : Z)
    (wd : world Request) :
  (thread_count < 0)%Z ->
  py_collect fmt parse_fn e (query_blocks requests thread_count wd).1 wd
  = (Collected [], wd).
Proof.
  intros Hn. rewrite py_collect_cases by reflexivity.
  unfold run_body, query_blocks. simpl.
  replace (thread_count =? 0)%Z with false by (symmetry; apply Z.eqb_neq; lia).
  unfold run_threaded.
  replace (Z.to_nat thread_count) with 0 by lia. simpl.
  rewrite thread_turns_no_thread. simpl. rewrite app_nil_r.
  destruct wd; reflexivity.
Qed.

Lemma negative_thread_count_does_nothing_witness :
  py_collect fmt_getBlockWithData parse_int_tuple two_threads_env
    (query_blocks (PySeq three_blocks) (-1) fresh_world).1 fresh_world
  = (Collected [], fresh_world).
Proof.
  apply (negative_thread_count_does_nothing fmt_getBlockWithData
           parse_int_tuple two_threads_env (PySeq three_blocks) (-1)
           fresh_world).
  lia.
Defined.

(** X10. When one of the [connect] calls of a threaded batch raises, the
    consumer gets [socket.error] and no pair, no thread was started and the
    requests were not touched: no iterator was taken from them. *)
Theorem failed_connect_starts_nothing {Request Answer : Type}
    (fmt : Request -> string) (parse_fn : string -> option Answer)
    (e : env) (requests : iterable Request) (thread_count : Z)
    (wd : world Request) (k : nat) :
  k < Z.to_nat thread_count ->
  connect_ok (plan_of (net_plans e) k) = false ->
  exists wd',
    py_collect fmt parse_fn e (query_blocks requests thread_count wd).1 wd
    = (Failed SocketError [], wd')
    /\ iterators wd' = iterators wd
    /\ seq_iterations wd' = seq_iterations wd
    /\ threads_started wd' = threads_started wd.
Proof.
  intros Hk Hf. rewrite py_collect_cases by reflexivity.
  unfold run_body, query_blocks. simpl.
  replace (thread_count =? 0)%Z with false by (symmetry; apply Z.eqb_neq; lia).
  unfold run_threaded.
  pose proof (open_sockets_fails (net_plans e) k (Z.to_nat thread_count) 0 []
                ltac:(lia) Hf) as Ho.
  destruct (open_sockets _ _ _ _) as [ok socks]. simpl in Ho. subst ok.
  eexists. split; [reflexivity|]. simpl. auto.
Qed.

Lemma failed_connect_starts_nothing_witness :
  (py_collect fmt_getBlockWithData parse_int_tuple no_server
     (query_blocks (PySeq three_blocks) 2 fresh_world).1 fresh_world).1
  = Failed SocketError []
  /\ threads_started
       (py_collect fmt_getBlockWithData parse_int_tuple no_server
          (query_blocks (PySeq three_blocks) 2 fresh_world).1 fresh_world).2
     = 0.
Proof.
  destruct (failed_connect_starts_nothing fmt_getBlockWithData parse_int_tuple
              no_server (PySeq three_blocks) 2 fresh_world 0
              ltac:(simpl; lia) eq_refl)
    as (wd' & E & _ & _ & H).
  rewrite E. split; [reflexivity | exact H].
Defined.

(** X11. A threaded batch whose [connect] and [shutdown] calls all succeed
    and whose threads have all ended, by returning or by an exception,
    leaves exactly [thread_count] new sockets, every one shut down and
    closed, and has started exactly [thread_count] threads. *)
Theorem threaded_batch_closes_sockets {Request Answer : Type}
    (fmt : Request -> string) (parse_fn : string -> option Answer)
    (e : env) (requests : iterable Request) (thread_count : Z)
    (wd wd' : world Request) (items : list (Request * Answer)) :
  (0 < thread_count)%Z ->
  (forall j, j < Z.to_nat thread_count ->
     connect_ok (plan_of (net_plans e) j) = true
     /\ shutdown_ok (plan_of (net_plans e) j) = true) ->
  py_collect fmt parse_fn e (query_blocks requests thread_count wd).1 wd
  = (Collected items, wd') ->
  sockets wd' = sockets wd ++ repeat closed_socket (Z.to_nat thread_count)
  /\ threads_started wd' = threads_started wd + Z.to_nat thread_count.
Proof.
  intros Hn Hplans. rewrite py_collect_cases by reflexivity.
  unfold run_body, query_blocks. simpl.
  replace (thread_count =? 0)%Z with false by (symmetry; apply Z.eqb_neq; lia).
  unfold run_threaded.
  rewrite open_sockets_ok by (intros j Hj; apply Hplans; lia). simpl.
  pose proof (start_threads_world (Answer := Answer) (net_plans e) requests
                (Z.to_nat thread_count) 0 wd []) as Hs.
  destruct (start_threads _ _ _ _ _ _) as [wd1 ths]. simpl in Hs.
  destruct Hs as (S1 & S2 & _).
  destruct (forallb _ _); [|discriminate].
  intros E. inversion E; subst. simpl. split; [|exact S1].
  rewrite S2. f_equal. unfold cleanup.
  apply (cleanup_connected (net_plans e) _ (fun j => j)).
  intros j Hj. apply Hplans. exact Hj.
Qed.

Lemma threaded_batch_closes_sockets_witness :
  sockets (py_collect fmt_getBlockWithData parse_int_tuple two_threads_env
             (query_blocks (PySeq three_blocks) 2 fresh_world).1
             fresh_world).2
  = [closed_socket; closed_socket].
Proof.
  destruct (py_collect fmt_getBlockWithData parse_int_tuple two_threads_env
              (query_blocks (PySeq three_blocks) 2 fresh_world).1 fresh_world)
    as [[items|ex seen|seen] wd'] eqn:E;
    try (vm_compute in E; discriminate).
  apply (threaded_batch_closes_sockets fmt_getBlockWithData parse_int_tuple
           two_threads_env (PySeq three_blocks) 2 fresh_world wd' items).
  - lia.
  - intros [|[|j]] Hj; [split; reflexivity .. | simpl in Hj; lia].
  - exact E.
Defined.

(** X12. The threads of a batch over a sequence are started on
    [thread_count] separate iterators, each over the whole sequence; the
    threads of a batch over an iterator are all started on that one
    iterator. *)
Theorem threads_iterators {Request Answer : Type}
    (plans : list sock_plan) (n i : nat) (wd : world Request)
    (ths : list (thread Request Answer)) :
  (forall items,
      let r := start_threads plans (PySeq items) i n wd ths in
      iterators r.1 = iterators wd ++ repeat items n
      /\ map th_iter r.2
         = map th_iter ths ++ List.seq (length (iterators wd)) n
      /\ seq_iterations r.1 = seq_iterations wd + n)
  /\ (forall h,
      let r := start_threads plans (PyIterator h) i n wd ths in
      iterators r.1 = iterators wd
      /\ map th_iter r.2 = map th_iter ths ++ repeat h n
      /\ seq_iterations r.1 = seq_iterations wd).
Proof.
  split.
  - intros items. revert i wd ths.
    induction n as [|n IH]; intros i wd ths; simpl.
    + rewrite !app_nil_r. repeat split; lia.
    + match goal with |- context [start_threads _ _ _ _ ?w ?t] =>
        specialize (IH (S i) w t) end.
      simpl in IH. destruct IH as (I1 & I2 & I3).
      rewrite I1, I2, I3, map_app, length_app, <- !app_assoc. simpl.
      rewrite Nat.add_1_r. repeat split; lia.
  - intros h. revert i wd ths.
    induction n as [|n IH]; intros i wd ths; simpl.
    + rewrite !app_nil_r. repeat split; lia.
    + match goal with |- context [start_threads _ _ _ _ ?w ?t] =>
        specialize (IH (S i) w t) end.
      simpl in IH. destruct IH as (I1 & I2 & I3).
      rewrite I1, I2, I3, map_app, <- !app_assoc. simpl. repeat split; lia.
Qed.

(** ** One thread *)

Section OneThread.
Context {Request Answer : Type}.
Variable fmt : Request -> string.
Variable parse_fn : string -> option Answer.

Lemma grab_twice (w : worker Request Answer) :
  grab fmt (grab fmt w) = grab fmt w.
Proof.
  pose proof (grab_settled fmt w (request_iter (grab fmt w))
                (answer_queue (grab fmt w))) as H.
  assert (E : with_shared (request_iter (grab fmt w))
                (answer_queue (grab fmt w)) (grab fmt w) = grab fmt w)
    by (destruct (grab fmt w); reflexivity).
  now rewrite E in H.
Qed.

(** A worker waiting in [select] goes on as if it had not yet drawn. *)
Lemma worker_fn_drawn script (w : worker Request Answer) :
  loop_test (grab fmt w) = true ->
  worker_fn fmt parse_fn script (grab fmt w) = worker_fn fmt parse_fn script w.
Proof.
  intros H. pose proof (loop_test_grab fmt w H) as H0.
  destruct script; [rewrite !worker_fn_nil | rewrite !worker_fn_cons];
    now rewrite grab_twice, H, H0.
Qed.

Lemma worker_fn_over script (w : worker Request Answer) :
  loop_test (grab fmt w) = false ->
  worker_fn fmt parse_fn script w
  = Returned (if loop_test w then grab fmt w else w).
Proof.
  intros H.
  destruct script; [rewrite worker_fn_nil | rewrite worker_fn_cons];
    rewrite H; destruct (loop_test w); reflexivity.
Qed.

(** Running on a script is running on its first reaction and, from the
    next [select], on the rest. *)
Lemma worker_fn_split react script (w : worker Request Answer) :
  worker_fn fmt parse_fn (react :: script) w
  = match worker_fn fmt parse_fn [react] w with
    | Blocked w1 => worker_fn fmt parse_fn script w1
    | o => o
    end.
Proof.
  rewrite !worker_fn_cons.
  destruct (loop_test w); [|reflexivity].
  destruct (loop_test (grab fmt w)); [|reflexivity].
  destruct (io_and_parse_shape parse_fn
              (react (sock_sent (grab fmt w)) (sock_rcvd (grab fmt w)))
              (grab fmt w)) as [[w2 ->]|(ex & w2 & ->)]; [|reflexivity].
  rewrite worker_fn_nil.
  destruct (loop_test (grab fmt w2)) eqn:T.
  - rewrite (loop_test_grab fmt w2 T). now rewrite worker_fn_drawn.
  - rewrite (worker_fn_over script w2 T). destruct (loop_test w2); reflexivity.
Qed.

Lemma worker_fn_not_running script : forall (w w' : worker Request Answer),
  worker_fn fmt parse_fn script w <> Running w'.
Proof.
  induction script as [|react script IH]; intros w w'.
  - rewrite worker_fn_nil.
    destruct (loop_test w); [destruct (loop_test (grab fmt w))|]; discriminate.
  - rewrite worker_fn_cons.
    destruct (loop_test w); [|discriminate].
    destruct (loop_test (grab fmt w)); [|discriminate].
    destruct (io_and_parse_shape parse_fn
                (react (sock_sent (grab fmt w)) (sock_rcvd (grab fmt w)))
                (grab fmt w)) as [[w2 ->]|(ex & w2 & ->)];
      [apply IH | discriminate].
Qed.

(** A pool of one thread. *)
Lemma thread_turn_other its q (t : thread Request Answer) i :
  thread_turn fmt parse_fn
    {| pl_iterators := its; pl_queue := q; pl_threads := [t] |} (S i)
  = {| pl_iterators := its; pl_queue := q; pl_threads := [t] |}.
Proof. reflexivity. Qed.

Lemma thread_turns_over sch its q (t : thread Request Answer) :
  thread_over t = true ->
  fold_left (thread_turn fmt parse_fn) sch
    {| pl_iterators := its; pl_queue := q; pl_threads := [t] |}
  = {| pl_iterators := its; pl_queue := q; pl_threads := [t] |}.
Proof.
  intros H. induction sch as [|i sch IH]; [reflexivity|].
  simpl fold_left. destruct i as [|i]; [|exact IH].
  unfold thread_turn at 2. simpl. unfold thread_over in H.
  destruct (th_status t); [discriminate | exact IH | exact IH].
Qed.

(** One thread, given more turns than its script has reactions, ends as
    the worker does on the whole script. *)
Lemma one_thread_returns sch : forall script its h wl w w',
  its !! h = Some (request_iter w) ->
  with_shared (request_iter w) (answer_queue w) wl = w ->
  worker_fn fmt parse_fn script w = Returned w' ->
  length script < count_occ Nat.eq_dec sch 0 ->
  let p := fold_left (thread_turn fmt parse_fn) sch
             {| pl_iterators := its; pl_queue := answer_queue w;
                pl_threads := [ {| th_status := TLive; th_iter := h;
                                   th_script := script;
                                   th_worker := wl |} ] |} in
  pl_queue p = answer_queue w'
  /\ forallb thread_over (pl_threads p) = true.
Proof.
  assert (Eta : forall w : worker Request Answer,
             with_shared (request_iter w) (answer_queue w) w = w)
    by (intros w; destruct w; reflexivity).
  induction sch as [|i sch IH]; intros script its h wl w w' Hit Ew Hret Hlen;
    [simpl in Hlen; lia|].
  destruct i as [|i].
  2:{ simpl fold_left. rewrite thread_turn_other.
      apply IH; assumption. }
  simpl in Hlen. simpl fold_left.
  unfold thread_turn at 2. simpl. rewrite Hit. simpl. rewrite Ew.
  destruct script as [|react script].
  - simpl take. rewrite Hret.
    rewrite thread_turns_over by reflexivity. split; reflexivity.
  - change (take 1 (react :: script)) with [react].
    change (drop 1 (react :: script)) with script.
    rewrite worker_fn_split in Hret.
    destruct (worker_fn fmt parse_fn [react] w) as [w1|w1|w1|ex w1] eqn:E.
    + exfalso. eapply worker_fn_not_running, E.
    + apply IH.
      * simpl. apply list_lookup_insert_eq.
        apply lookup_lt_Some in Hit. exact Hit.
      * apply Eta.
      * exact Hret.
      * simpl in Hlen. lia.
    + inversion Hret; subst.
      rewrite thread_turns_over by reflexivity. split; reflexivity.
    + discriminate.
Qed.

Lemma py_iter_lookup requests (wd : world Request) R :
  denotes requests wd R ->
  iterators (py_iter requests wd).2 !! (py_iter requests wd).1 = Some R.
Proof.
  unfold denotes. destruct requests as [items|h]; simpl.
  - intros ->. now rewrite list_lookup_middle.
  - trivial.
Qed.

End OneThread.

(** X13. With [thread_count == 1] and a server that answers every request
    on the new connection, whoever exhausts the generator gets the pairs
    (request, answer) in the order of the request sequence, every request
    once, as soon as the transport was ready often enough and the thread
    was given the time to use it. *)
Theorem one_thread_in_order {Request Answer : Type}
    (fmt : Request -> string) (parse_fn : string -> option Answer)
    (reply : bytes -> bytes) (answer_of : Request -> Answer)
    (requests : iterable Request) (R : list Request) (wd : world Request)
    (e : env) (choices : list choice) :
  (forall r, nl_free (command fmt r)) ->
  (forall r, nl_free (reply (command fmt r))) ->
  (forall r, parse_fn (decode (reply (command fmt r))) = Some (answer_of r)) ->
  denotes requests wd R ->
  connect_ok (plan_of (net_plans e) 0) = true ->
  plan_script (plan_of (net_plans e) 0) = map (served reply) choices ->
  budget_of fmt reply R < count_ready choices ->
  length choices < count_occ Nat.eq_dec (schedule e) 0 ->
  (py_collect fmt parse_fn e (query_blocks requests 1 wd).1 wd).1
  = Collected (map (fun r => (r, answer_of r)) R).
Proof.
  intros Hf Hr Hp Hden Hconn Hscript Hfuel Hturns.
  rewrite py_collect_cases by reflexivity.
  unfold run_body, query_blocks. simpl. unfold run_threaded. simpl.
  rewrite Hconn.
  pose proof (py_iter_lookup requests wd R Hden) as Hit.
  destruct (py_iter requests wd) as [h wd1]. simpl in Hit.
  rewrite Hscript.
  destruct (worker_fn_served fmt parse_fn reply answer_of Hf Hr Hp
              choices R (worker_init R []))
    as (w' & E & Haq & _).
  { apply inv_init. }
  { unfold progress. simpl. lia. }
  destruct (one_thread_returns fmt parse_fn (schedule e)
              (map (served reply) choices) (iterators wd1) h
              (worker_init [] []) (worker_init R []) w' Hit eq_refl E)
    as [Hq Hover].
  { now rewrite length_map. }
  simpl in Hq, Hover. cbn [iterators]. rewrite Hover, Hq, Haq. reflexivity.
Qed.

Lemma one_thread_in_order_witness :
  (py_collect fmt_getBlockWithData parse_int_tuple one_thread_env
     (query_blocks (PySeq three_blocks) 1 fresh_world).1 fresh_world).1
  = Collected [((0, 0, 0), [1; 0]); ((1, 0, 0), [2; 0]);
               ((2, 0, 0), [3; 0])]%Z.
Proof.
  apply (one_thread_in_order fmt_getBlockWithData parse_int_tuple
           stub_reply stub_answer (PySeq three_blocks) three_blocks
           fresh_world one_thread_env (repeat eager 110)
           fmt_getBlockWithData_line (fun r => stub_reply_line _)
           stub_reply_parsed eq_refl eq_refl eq_refl).
  - vm_compute. lia.
  - vm_compute. lia.
Defined.

(** ** The inline batch with any peer *)

Section InlineAnyPeer.
Context {Request Answer : Type}.
Variable fmt : Request -> string.
Variable parse_fn : string -> option Answer.

(** How an inline batch can end, whoever the peer is. *)
Lemma py_collect_inline_ends e requests R (wd : world Request) :
  denotes requests wd R ->
  let got := py_collect fmt parse_fn e (query_blocks requests 0 wd).1 wd in
  (exists items : list (Request * Answer),
      got.1 = Collected items /\ map fst items = R)
  \/ (exists ex, got.1 = Failed ex []
                 /\ (ex = SocketError \/ ex = RuntimeError_send0
                     \/ ex = IndexError \/ ex = ParseError))
  \/ got.1 = Stuck [].
Proof.
  intros Hden got. subst got.
  pose proof (py_iter_denotes requests wd R Hden) as Hit.
  rewrite py_collect_cases by reflexivity.
  unfold run_body, query_blocks, run_inline. simpl.
  destruct (py_iter requests wd) as [h wd1]. simpl in Hit. rewrite Hit.
  destruct (worker_fn fmt parse_fn (conn_script e) (worker_init R []))
    as [w'|w'|w'|ex w'] eqn:E; simpl.
  - right. right. reflexivity.
  - right. right. reflexivity.
  - left. eexists. split; [reflexivity|].
    now apply worker_fn_returned_keys in E as [? _].
  - right. left. exists ex. split; [reflexivity|].
    eapply worker_fn_raises, E.
Qed.

End InlineAnyPeer.

(** X14. An inline batch gives all or nothing, whoever the peer is: whoever
    exhausts the generator gets one pair for every request, in the order of
    the requests, or the exception of the worker and no pair at all (not
    even those queued before the failure), or is kept waiting, again
    without a pair. *)
Theorem inline_batch_all_or_nothing {Request Answer : Type}
    (fmt : Request -> string) (parse_fn : string -> option Answer)
    (e : env) (requests : iterable Request) (R : list Request)
    (wd : world Request) :
  denotes requests wd R ->
  let got := (py_collect fmt parse_fn e (query_blocks requests 0 wd).1 wd).1 in
  (exists items, got = Collected items /\ map fst items = R)
  \/ (exists ex, got = Failed ex [])
  \/ got = Stuck [].
Proof.
  intros Hden got.
  destruct (py_collect_inline_ends fmt parse_fn e requests R wd Hden)
    as [H|[(ex & H & _)|H]]; eauto.
Qed.

(** The connection is reset after the first answer of an inline batch. *)
Lemma inline_batch_all_or_nothing_witness :
  (py_collect fmt_getBlockWithData parse_int_tuple failing_thread_env
     (query_blocks (PySeq three_blocks) 0 fresh_world).1 fresh_world).1
  = Failed SocketError [].
Proof.
  destruct (inline_batch_all_or_nothing fmt_getBlockWithData parse_int_tuple
              failing_thread_env (PySeq three_blocks) three_blocks
              fresh_world eq_refl)
    as [(items & E & _)|[(ex & E)|E]];
    try (vm_compute in E; discriminate).
  rewrite E. vm_compute in E. congruence.
Defined.

(** ** The adapters with any peer *)

Section AdaptersAnyPeer.
Context {Block : Type}.
Variable picraft_Block : list Z -> Block.

(** The dict holds, for a key, the data of the last pair with that key. *)
Lemma dict_of_latest (items : list (Vector * list Z)) v :
  dict_of items !! v = latest items v.
Proof.
  unfold dict_of, latest.
  assert (H : forall (m : gmap Vector (list Z)) acc, m !! v = acc ->
              fold_left (fun m (item : Vector * list Z) =>
                           <[item.1 := item.2]> m) items m !! v
              = fold_left (fun acc (item : Vector * list Z) =>
                             if decide (item.1 = v) then Some item.2 else acc)
                          items acc).
  { induction items as [|[k d] items IH]; intros m acc Hm; simpl;
      [exact Hm|].
    apply IH. destruct (decide (k = v)) as [->|Hne].
    - apply lookup_insert_eq.
    - rewrite lookup_insert_ne by assumption. exact Hm. }
  apply H. apply lookup_empty.
Qed.

Lemma latest_key (items : list (Vector * list Z)) v :
  v ∈ map fst items -> is_Some (latest items v).
Proof.
  unfold latest.
  assert (H : forall acc,
              (is_Some acc \/ v ∈ map fst items) ->
              is_Some (fold_left
                         (fun acc (item : Vector * list Z) =>
                            if decide (item.1 = v) then Some item.2 else acc)
                         items acc)).
  { induction items as [|[k d] items IH]; intros acc Hacc; simpl.
    - destruct Hacc as [?|Hin]; [assumption|inversion Hin].
    - apply IH. simpl in Hacc. destruct (decide (k = v)) as [->|Hne].
      + left. eauto.
      + destruct Hacc as [?|Hin]; [now left|].
        apply elem_of_cons in Hin as [?|?]; [congruence|now right]. }
  intros Hin. apply H. now right.
Qed.

Lemma blocks_of_latest (items : list (Vector * list Z)) it :
  (forall v, v ∈ it -> v ∈ map fst items) ->
  exists datas,
    blocks_of picraft_Block (dict_of items) it
    = (Value (map picraft_Block datas), [])
    /\ Forall2 (fun v data => latest items v = Some data) it datas.
Proof.
  induction it as [|v it IH]; intros H.
  - exists []. split; [reflexivity|constructor].
  - destruct IH as (datas & E & F).
    { intros v' Hv'. apply H, elem_of_cons. now right. }
    destruct (latest_key items v) as [data Hd].
    { apply H, elem_of_cons. now left. }
    exists (data :: datas). simpl. rewrite dict_of_latest, Hd, E.
    split; [reflexivity | now constructor].
Qed.

(** Everything the block adapter does once the batch has given [items]. *)
Lemma getblock_after_batch e vrange wd items wd1 :
  py_collect fmt_getBlockWithData parse_int_tuple e
    (query_blocks (PySeq vrange) 0 wd).1 wd = (Collected items, wd1) ->
  (alt_picraft_getblock_vrange picraft_Block e vrange wd).1
  = (blocks_of picraft_Block (dict_of items) vrange).1.
Proof.
  intros E. unfold alt_picraft_getblock_vrange.
  unfold query_blocks in E |- *. cbn [fst] in E. cbv beta iota.
  rewrite E. cbv beta iota.
  unfold py_iter, iterator_items. cbn [iterators].
  rewrite list_lookup_middle by reflexivity. cbn [default from_option id].
  destruct (blocks_of picraft_Block (dict_of items) vrange). reflexivity.
Qed.

End AdaptersAnyPeer.

(** X16. The block adapter called with a sequence never raises [KeyError]
    at [ans[v]], whoever the peer is: when the batch ends, the dict has a
    key for every position of the range.  When the adapter returns, it
    returns one block per position. *)
Theorem getblock_never_key_error {Block : Type}
    (picraft_Block : list Z -> Block) (e : env) (vrange : list Vector)
    (wd : world Vector) :
  match (alt_picraft_getblock_vrange picraft_Block e vrange wd).1 with
  | Value blocks => length blocks = length vrange
  | Error ex => ex <> KeyError
  | NoValue => True
  end.
Proof.
  destruct (py_collect fmt_getBlockWithData parse_int_tuple e
              (query_blocks (PySeq vrange) 0 wd).1 wd) as [c wd1] eqn:E.
  destruct (py_collect_inline_ends fmt_getBlockWithData parse_int_tuple e
              (PySeq vrange) vrange wd eq_refl)
    as [(items & Ec & Hk)|[(ex & Ec & Hex)|Ec]];
    rewrite E in Ec; simpl in Ec; subst c.
  - rewrite (getblock_after_batch picraft_Block e vrange wd items wd1 E).
    destruct (blocks_of_latest picraft_Block items vrange)
      as (datas & Eb & F).
    { intros v Hv. now rewrite Hk. }
    rewrite Eb. simpl. rewrite length_map.
    symmetry. eapply Forall2_length, F.
  - unfold alt_picraft_getblock_vrange.
    unfold query_blocks in E |- *. cbn [fst] in E. cbv beta iota.
    rewrite E. destruct Hex as [H|[H|[H|H]]]; rewrite H; discriminate.
  - unfold alt_picraft_getblock_vrange.
    unfold query_blocks in E |- *. cbn [fst] in E. cbv beta iota.
    rewrite E. exact I.
Qed.



(** X18. Whatever the peer answers, the vectors the height adapter returns
    have the x and the z of the positions of the range, in the order of the
    range; only the height in between comes from the peer. *)
Theorem getheight_keeps_columns (e : env) (vrange : list Vector)
    (wd : world (Z * Z)) (heights : list Vector) :
  (alt_picraft_getheight_vrange e vrange wd).1 = Value heights ->
  map (fun v : Vector => (v.1.1, v.2)) heights
  = map (fun v : Vector => (v.1.1, v.2)) vrange.
Proof.
  unfold alt_picraft_getheight_vrange, columns_of.
  set (wd0 := {| iterators := _ |}).
  set (columns := PyIterator _).
  assert (Hden : denotes columns wd0
                   (map (fun v : Vector => (v.1.1, v.2)) vrange)).
  { subst columns wd0. simpl. now rewrite list_lookup_middle. }
  destruct (py_collect_inline_ends fmt_getHeight py_int e columns _ wd0 Hden)
    as [(items & Ec & Hk)|[(ex & Ec & _)|Ec]];
    unfold query_blocks in Ec |- *; cbn [fst] in Ec; cbv beta iota;
    destruct (py_collect fmt_getHeight py_int e _ wd0) as [c wd2];
    simpl in Ec; subst c; try discriminate.
  intros E. inversion E; subst. rewrite <- Hk, !map_map.
  apply map_ext. intros [[x z] y]. reflexivity.
Qed.

Lemma getheight_keeps_columns_witness :
  (alt_picraft_getheight_vrange
     {| conn_script := repeat babbler_int 3; net_plans := []; schedule := [] |}
     three_blocks fresh_world).1
  = Value [(0, 9, 0); (1, 9, 0); (2, 9, 0)]%Z
  /\ map (fun v : Vector => (v.1.1, v.2)) [(0, 9, 0); (1, 9, 0); (2, 9, 0)]%Z
     = map (fun v : Vector => (v.1.1, v.2)) three_blocks.
Proof.
  assert (E : (alt_picraft_getheight_vrange
                 {| conn_script := repeat babbler_int 3; net_plans := [];
                    schedule := [] |} three_blocks fresh_world).1
              = Value [(0, 9, 0); (1, 9, 0); (2, 9, 0)]%Z)
    by (vm_compute; reflexivity).
  split; [exact E|].
  exact (getheight_keeps_columns _ three_blocks fresh_world _ E).
Defined.

(** X19. On an empty range both adapters return the empty list without any
    traffic on the connection, whoever the peer is. *)
Theorem adapters_on_empty_range {Block : Type}
    (picraft_Block : list Z -> Block) (e : env)
    (block_world : world Vector) (height_world : world (Z * Z)) :
  (exists wd',
      alt_picraft_getblock_vrange picraft_Block e [] block_world
      = (Value [], wd')
      /\ conn_sent wd' = conn_sent block_world
      /\ conn_rcvd wd' = conn_rcvd block_world)
  /\ (exists wd',
      alt_picraft_getheight_vrange e [] height_world = (Value [], wd')
      /\ conn_sent wd' = conn_sent height_world
      /\ conn_rcvd wd' = conn_rcvd height_world).
Proof.
  split.
  - destruct (py_collect_no_request fmt_getBlockWithData parse_int_tuple e
                (PySeq []) block_world eq_refl) as (wd' & E & H1 & H2 & _).
    unfold alt_picraft_getblock_vrange.
    unfold query_blocks in E |- *. cbn [fst] in E. cbv beta iota.
    rewrite E. cbv beta iota.
    unfold py_iter, iterator_items. cbn [iterators].
    rewrite list_lookup_middle by reflexivity. simpl.
    eexists. split; [reflexivity|]. simpl. auto.
  - unfold alt_picraft_getheight_vrange, columns_of.
    set (wd0 := {| iterators := _ |}).
    set (columns := PyIterator _).
    assert (Hden : denotes columns wd0 []).
    { subst columns wd0. simpl. now rewrite list_lookup_middle. }
    destruct (py_collect_no_request fmt_getHeight py_int e columns wd0 Hden)
      as (wd' & E & H1 & H2 & _).
    unfold query_blocks in E |- *. cbn [fst] in E. cbv beta iota.
    rewrite E. cbv beta iota.
    eexists. split; [reflexivity|]. rewrite H1, H2. split; reflexivity.
Qed.

(** ** Parsers and formats *)

Lemma pct_d_parsed z : py_int (pct_d z) = Some z.
Proof.
  unfold py_int, pct_d. rewrite NilZero.isi.
  - simpl. now rewrite DecimalZ.of_to.
  - destruct z; simpl; try discriminate.
    intros E. inversion E as [E']. now apply Unsigned.to_uint_nonnil in E'.
  - destruct z; simpl; try discriminate.
    intros E. inversion E as [E']. now apply Unsigned.to_uint_nonnil in E'.
Qed.

Lemma str_split_String_sep sep s :
  str_split sep (String sep s) = EmptyString :: str_split sep s.
Proof. simpl. now rewrite Ascii.eqb_refl. Qed.

Lemma str_split_String_other sep c s :
  c <> sep ->
  str_split sep (String c s)
  = String c (List.hd EmptyString (str_split sep s))
      :: List.tl (str_split sep s).
Proof.
  intros Hc. cbn [str_split]. fold (str_split sep s).
  destruct (Ascii.eqb_spec c sep); [contradiction|].
  destruct (str_split sep s); reflexivity.
Qed.

(** A separator-free text in front of a separator is the first field. *)
Lemma str_split_field sep s1 s2 :
  ~ In sep (list_ascii_of_string s1) ->
  str_split sep (s1 ++ String sep s2)%string = s1 :: str_split sep s2.
Proof.
  induction s1 as [|c s1 IH]; intros H.
  - apply str_split_String_sep.
  - change (String c s1 ++ String sep s2)%string
      with (String c (s1 ++ String sep s2)).
    rewrite str_split_String_other by (intros ->; apply H; now left).
    rewrite IH by (intros Hin; apply H; now right). reflexivity.
Qed.

Lemma str_split_single sep s :
  ~ In sep (list_ascii_of_string s) -> str_split sep s = [s].
Proof.
  induction s as [|c s IH]; intros H; [reflexivity|].
  rewrite str_split_String_other by (intros ->; apply H; now left).
  rewrite IH by (intros Hin; apply H; now right). reflexivity.
Qed.

Lemma digits_no_comma d :
  ~ In ","%char (list_ascii_of_string (NilEmpty.string_of_uint d)).
Proof.
  induction d; simpl; intros H; try contradiction;
    destruct H as [H|H]; try discriminate; contradiction.
Qed.

Lemma pct_d_no_comma z : ~ In ","%char (list_ascii_of_string (pct_d z)).
Proof.
  unfold pct_d, NilZero.string_of_int, NilZero.string_of_uint.
  destruct (Z.to_int z) as [d|d].
  - destruct d; try apply digits_no_comma.
    simpl. intros [H|H]; [discriminate|contradiction].
  - simpl. intros [H|H]; [discriminate|]. revert H.
    destruct d; try apply digits_no_comma.
    simpl. intros [H|H]; [discriminate|contradiction].
Qed.

(** X20. The parsers read back what [%d] writes: [int] gives the integer of
    a [%d] text, and the tuple parser of the block query gives the two
    integers of a text made of two [%d] fields and a comma, in order;
    negative numbers included. *)
Theorem parsers_read_formatted_integers (a b : Z) :
  py_int (pct_d a) = Some a
  /\ parse_int_tuple (pct_d a ++ "," ++ pct_d b)%string = Some [a; b].
Proof.
  split; [apply pct_d_parsed|].
  unfold parse_int_tuple.
  change ("," ++ pct_d b)%string with (String ","%char (pct_d b)).
  rewrite str_split_field by apply pct_d_no_comma.
  rewrite str_split_single by apply pct_d_no_comma.
  simpl. now rewrite !pct_d_parsed.
Qed.

(** X21. The commands of both formats are single lines, so the requests of a
    sequence reach the peer as one line each, in the order of the sequence,
    with nothing after the last terminator: splitting the wire bytes at the
    terminators gives back exactly the commands. *)
Theorem commands_are_lines (blocks : list Vector) (columns : list (Z * Z)) :
  bytes_split (wire_of fmt_getBlockWithData blocks)
  = map (command fmt_getBlockWithData) blocks ++ [[]]
  /\ bytes_split (wire_of fmt_getHeight columns)
     = map (command fmt_getHeight) columns ++ [[]].
Proof.
  split; unfold wire_of.
  - rewrite <- (app_nil_r (stream _)). apply bytes_split_stream.
    + apply Forall_map, Forall_forall. intros r _.
      apply fmt_getBlockWithData_line.
    + apply nl_free_nil.
  - rewrite <- (app_nil_r (stream _)). apply bytes_split_stream.
    + apply Forall_map, Forall_forall. intros r _. apply fmt_getHeight_line.
    + apply nl_free_nil.
Qed.

(** ** setup.py *)

(** X22. The interpreter check of [setup.py] lets exactly Python 2 from 2.7
    on and Python 3 from 3.4 on proceed, whatever the micro version, the
    release level and the serial number are; any other major version is
    refused as unrecognized, and the check never fails in another way than
    with one of its three messages. *)
Theorem check_interpreter_accepts (v : version_info) :
  (check_interpreter v = Proceeds
   <-> (major v = 2 /\ 7 <= minor v)%Z \/ (major v = 3 /\ 4 <= minor v)%Z)
  /\ (check_interpreter v
      = ValueError "Unrecognized major version of Python"
      <-> major v <> 2%Z /\ major v <> 3%Z)
  /\ check_interpreter v <> TypeError.
Proof.
  assert (Hge : forall M m, major v = M ->
            py_tuple_ge (as_tuple v) [M; m]%Z = Some (m <=? minor v)%Z).
  { intros M m <-. unfold as_tuple. cbn [py_tuple_ge]. rewrite Z.eqb_refl.
    destruct (Z.eqb_spec (minor v) m) as [->|Hm].
    - f_equal. symmetry. apply Z.leb_le. lia.
    - f_equal. destruct (Z.ltb_spec m (minor v)), (Z.leb_spec m (minor v));
        try reflexivity; lia. }
  unfold check_interpreter.
  destruct (Z.eqb_spec (major v) 2) as [E2|H2].
  - rewrite (Hge _ 7%Z E2).
    destruct (Z.leb_spec 7 (minor v)); simpl; repeat split;
      try discriminate; try lia; intros; reflexivity.
  - destruct (Z.eqb_spec (major v) 3) as [E3|H3].
    + rewrite (Hge _ 4%Z E3).
      destruct (Z.leb_spec 4 (minor v)); simpl; repeat split;
        try discriminate; try lia; intros; reflexivity.
    + repeat split; try discriminate; try lia; intros; auto.
Qed.
